(** * repo-to-agent: the repository indexer of [src/repo_to_agent/cli.py]

    A shallow embedding of the indexer (policy tables, classifier, content
    reader, structured-log formatter and the [os.walk] driven orchestrator)
    followed by the properties of its specification.

    Conventions of the embedding.
    - A Python [str] is a [string]; [len] is [String.length], slices and
      [str.lower] are written out below.  [str.lower] is modelled on the
      ASCII letters; the excluded extensions are ASCII and no character
      outside ASCII lower-cases to one of their letters.
    - A [pathlib.Path] is the list of its components below the POSIX root;
      entry names are names as [os.scandir] yields them (non-empty, without
      a slash, neither "." nor "..").
    - [Path.suffix] is the definition of CPython 3.10 to 3.13.
    - The mutable objects ([metrics], [file_index], the handler's stream)
      live in one [State] that is threaded through a state-and-exception
      monad; an exception is represented by its [str()]. *)

From Stdlib Require Import ZArith Lia Ascii String.
From stdpp Require Import base option list gmap strings pretty.

Local Open Scope string_scope.
Local Open Scope list_scope.
Local Open Scope Z_scope.

(** ** Python strings *)

Module Str.

Definition len (s : string) : Z := Z.of_nat (String.length s).

Fixpoint take (n : nat) (s : string) : string :=
  match n, s with
  | S n', String a s' => String a (take n' s')
  | _, _ => EmptyString
  end.

Fixpoint drop (n : nat) (s : string) : string :=
  match n, s with
  | S n', String _ s' => drop n' s'
  | _, _ => s
  end.

(** [s[:k]] and [s[k:]], a negative index counting from the end. *)
Definition slice_to (s : string) (k : Z) : string :=
  if 0 <=? k then take (Z.to_nat k) s else take (Z.to_nat (len s + k)) s.

Definition slice_from (s : string) (k : Z) : string :=
  if 0 <=? k then drop (Z.to_nat k) s else drop (Z.to_nat (len s + k)) s.

(** [s.rfind(c)]: the highest index of [c] in [s], or -1. *)
Fixpoint rfind (c : ascii) (s : string) : Z :=
  match s with
  | EmptyString => -1
  | String a s' =>
      let i := rfind c s' in
      if 0 <=? i then i + 1
      else if Ascii.eqb a c then 0 else -1
  end.

Definition lower_char (c : ascii) : ascii :=
  let n := nat_of_ascii c in
  if (Nat.leb 65 n && Nat.leb n 90)%bool then ascii_of_nat (n + 32) else c.

Fixpoint lower (s : string) : string :=
  match s with
  | EmptyString => EmptyString
  | String a s' => String (lower_char a) (lower s')
  end.

(** [s.startswith(p)] *)
Fixpoint startswith (s p : string) : bool :=
  match p, s with
  | EmptyString, _ => true
  | String b p', String a s' => (Ascii.eqb a b && startswith s' p')%bool
  | String _ _, EmptyString => false
  end.

(** [sep.join(l)] *)
Fixpoint join (sep : string) (l : list string) : string :=
  match l with
  | [] => ""
  | [x] => x
  | x :: l' => x +:+ sep +:+ join sep l'
  end.

End Str.

(** ** Paths *)

Module Path.

Definition t := list string.

(** [p / name] *)
Definition child (p : t) (name : string) : t := p ++ [name].

(** [str(p)] for an absolute path. *)
Definition str (p : t) : string := "/" +:+ Str.join "/" p.

(** [str(p)] for a relative path. *)
Definition rel_str (p : t) : string :=
  match p with
  | [] => "."
  | _ => Str.join "/" p
  end.

(** [p.name]: the final component. *)
Definition name (p : t) : string := List.last p "".

(** [p.suffix] *)
Definition suffix (p : t) : string :=
  let name := name p in
  let i := Str.rfind "."%char name in
  if ((0 <? i) && (i <? Str.len name - 1))%bool
  then Str.slice_from name i
  else "".

(** [p.relative_to(base)]: the components after [base], when [base] is a
    prefix of [p] ([None] stands for the [ValueError]). *)
Fixpoint relative_to (p base : t) {struct base} : option t :=
  match base, p with
  | [], _ => Some p
  | b :: base', c :: p' => if String.eqb b c then relative_to p' base' else None
  | _ :: _, [] => None
  end.

End Path.

(** ** The fixed policy tables *)

Definition SKIP_DIRS : gset string :=
  {[ "node_modules"; ".venv"; "__pycache__"; ".git" ]}.

Definition SKIP_EXTS : gset string :=
  {[ ".xlsx"; ".zip"; ".jpg"; ".jpeg"; ".png"; ".gif"; ".exe"; ".dll";
     ".pyc"; ".so" ]}.

Definition SKIP_FILES : gset string := {[ ".gitignore" ]}.

(** ** State: the mutable objects of one run *)

(** The [metrics] dict.  [char_count] is absent until the traversal ends. *)
Record Metrics := mkMetrics {
  indexed : nat;
  skipped : nat;
  errors : nat;
  char_count : option nat
}.

(** The values that the call sites pass as keyword arguments. *)
Inductive JValue :=
| JStr (s : string)
| JInt (n : Z).

#[global] Instance JValue_eq_dec : EqDecision JValue.
Proof. solve_decision. Defined.

(** A [logging.LogRecord], with the attributes the formatter reads.
    [extra] is the attribute that [log_info] and [log_warning] attach;
    a record made elsewhere has none. *)
Record LogRecord := mkLogRecord {
  levelno : nat;
  name : string;
  funcName : string;
  msg : string;
  extra : option (gmap string JValue)
}.

Record State := mkState {
  metrics : Metrics;
  file_index : list string;
  stderr : list LogRecord
}.

(** ** A state-and-exception monad *)

Inductive Result (A : Type) :=
| Ok (a : A) (st : State)
| Raise (e : string) (st : State).
Arguments Ok {A} a st.
Arguments Raise {A} e st.

Definition M (A : Type) : Type := State -> Result A.

#[global] Instance M_ret : MRet M := λ A a st, Ok a st.

#[global] Instance M_bind : MBind M := λ A B f m st,
  match m st with
  | Ok a st' => f a st'
  | Raise e st' => Raise e st'
  end.

Definition raise {A} (e : string) : M A := λ st, Raise e st.

(** [try: body  except Exception as e: handler(e)] *)
Definition try_except {A} (body : M A) (handler : string -> M A) : M A :=
  λ st,
    match body st with
    | Ok a st' => Ok a st'
    | Raise e st' => handler e st'
    end.

Definition get_metrics : M Metrics := λ st, Ok (metrics st) st.

Definition set_metrics (m : Metrics) : M unit := λ st,
  Ok tt (mkState m (file_index st) (stderr st)).

Definition append_index (section : string) : M unit := λ st,
  Ok tt (mkState (metrics st) (file_index st ++ [section]) (stderr st)).

Definition get_index : M (list string) := λ st, Ok (file_index st) st.

Definition set_index (l : list string) : M unit := λ st,
  Ok tt (mkState (metrics st) l (stderr st)).

(** The stream handler: the record goes to the stream; the line written for
    it is [format] of the record at that moment. *)
Definition handle (r : LogRecord) : M unit := λ st,
  Ok tt (mkState (metrics st) (file_index st) (stderr st ++ [r])).

(** [for x in l: body(x)] *)
Fixpoint for_each {A} (l : list A) (body : A -> M unit) : M unit :=
  match l with
  | [] => mret tt
  | x :: l' => body x ;; for_each l' body
  end.

(** [metrics[key] += 1] *)
Definition incr_skipped : M unit :=
  m ← get_metrics;
  set_metrics (mkMetrics (indexed m) (S (skipped m)) (errors m) (char_count m)).

Definition incr_errors : M unit :=
  m ← get_metrics;
  set_metrics (mkMetrics (indexed m) (skipped m) (S (errors m)) (char_count m)).

Definition incr_indexed : M unit :=
  m ← get_metrics;
  set_metrics (mkMetrics (S (indexed m)) (skipped m) (errors m) (char_count m)).

Definition set_char_count (n : nat) : M unit :=
  m ← get_metrics;
  set_metrics (mkMetrics (indexed m) (skipped m) (errors m) (Some n)).

(** ** Logging *)

Module logging.

Definition DEBUG : nat := 10.
Definition INFO : nat := 20.
Definition WARNING : nat := 30.
Definition ERROR : nat := 40.
Definition CRITICAL : nat := 50.

(** [logging.getLevelName] on the default level table. *)
Definition getLevelName (level : nat) : string :=
  if Nat.eqb level CRITICAL then "CRITICAL"
  else if Nat.eqb level ERROR then "ERROR"
  else if Nat.eqb level WARNING then "WARNING"
  else if Nat.eqb level INFO then "INFO"
  else if Nat.eqb level DEBUG then "DEBUG"
  else if Nat.eqb level 0 then "NOTSET"
  else "Level " +:+ pretty level.

End logging.

(** [logger = logging.getLogger("repo_indexer")], at level INFO, with the
    one stream handler.  [caller] is the function that calls the logger. *)
Definition logger_name : string := "repo_indexer".
Definition logger_level : nat := logging.INFO.

Definition logger_log (level : nat) (caller message : string)
    (extra : gmap string JValue) : M unit :=
  if Nat.leb logger_level level
  then handle (mkLogRecord level logger_name caller message (Some extra))
  else mret tt.

(** [def log_info(message, **kwargs)] and its two siblings.  A keyword
    named [message] collides with the positional parameter: the call raises
    [TypeError] before anything is logged. *)
Definition log_info (message : string) (kwargs : gmap string JValue) : M unit :=
  match kwargs !! "message" with
  | Some _ => raise "log_info() got multiple values for argument 'message'"
  | None => logger_log logging.INFO "log_info" message kwargs
  end.

Definition log_warning (message : string) (kwargs : gmap string JValue) : M unit :=
  match kwargs !! "message" with
  | Some _ => raise "log_warning() got multiple values for argument 'message'"
  | None => logger_log logging.WARNING "log_warning" message kwargs
  end.

Definition log_error (message : string) (kwargs : gmap string JValue) : M unit :=
  match kwargs !! "message" with
  | Some _ => raise "log_error() got multiple values for argument 'message'"
  | None => logger_log logging.ERROR "log_error" message kwargs
  end.

(** ** OTELJsonFormatter *)

Definition map_severity (level : nat) : Z :=
  if Nat.eqb level logging.DEBUG then 5
  else if Nat.eqb level logging.INFO then 9
  else if Nat.eqb level logging.WARNING then 13
  else if Nat.eqb level logging.ERROR then 17
  else if Nat.eqb level logging.CRITICAL then 21
  else 1.

Section Formatter.

(** [TRACE_ID = str(uuid.uuid4())], evaluated once when the module loads. *)
Variable TRACE_ID : string.

(** [format(record)]: the dict handed to [json.dumps].  [utcnow] is
    [datetime.utcnow().isoformat()] at the time of the call;
    [base.update(extra)] is the union that prefers [extra]. *)
Definition format (utcnow : string) (record : LogRecord) : gmap string JValue :=
  let base : gmap string JValue :=
    <[ "timestamp" := JStr (utcnow +:+ "Z") ]>
    (<[ "severity_text" := JStr (logging.getLevelName (levelno record)) ]>
    (<[ "severity_number" := JInt (map_severity (levelno record)) ]>
    (<[ "message" := JStr (msg record) ]>
    (<[ "trace_id" := JStr TRACE_ID ]>
    (<[ "logger.name" := JStr (name record) ]>
    (<[ "code.function" := JStr (funcName record) ]> ∅)))))) in
  match extra record with
  | Some kwargs => kwargs ∪ base
  | None => base
  end.

End Formatter.

(** ** The file system as [os.walk] sees it *)

(** What [Path.read_text(encoding="utf-8")] does on a file: the decoded
    text, or the [str()] of the exception it raises. *)
Inductive ReadOutcome :=
| Text (content : string)
| Fails (error : string).

Record FileEntry := mkFile {
  fname : string;
  fdata : ReadOutcome
}.

(** A directory: the outcome of [os.scandir] on it.  [Scanned files subdirs]
    lists the non-directory entries and the directory entries, each in
    listing order; a directory entry carries its name, whether it is a
    symbolic link, and the directory behind it.  [ScanFailed e] is a
    directory whose listing raises [OSError] with [str()] [e]. *)
#[local] Unset Elimination Schemes.
Inductive Tree :=
| Scanned (files : list FileEntry) (subdirs : list (string * (bool * Tree)))
| ScanFailed (e : string).
#[local] Set Elimination Schemes.

Definition NL : string := String (ascii_of_nat 10) "".

Definition TRUNCATION_MARKER : string := NL +:+ "...[truncated]".

Definition DEFAULT_MAX_CHARS : Z := 5000.

Module os.

(** [os.walk(top, topdown=True, onerror, followlinks=False)] driving the
    body of a [for root, dirs, files in ...] loop.  The body receives the
    tuple and returns [dirs] as it left it (the loop may prune the list in
    place); the generator then descends into the entries whose names are
    still listed and are not symbolic links.  When [os.scandir] raises, the
    error is passed to [onerror] if there is one and is dropped otherwise
    (the library's default: errors from the scandir call are ignored);
    either way the directory yields no tuple and the walk goes on. *)
Fixpoint walk (onerror : option (string -> M unit))
    (body : Path.t -> list string -> list FileEntry -> M (list string))
    (top : Path.t) (t : Tree) : M unit :=
  match t with
  | ScanFailed e =>
      match onerror with
      | Some h => h e
      | None => mret tt
      end
  | Scanned files subdirs =>
      dirs ← body top (fst <$> subdirs) files;
      (fix descend (l : list (string * (bool * Tree))) : M unit :=
         match l with
         | [] => mret tt
         | (dirname, (islink, sub)) :: l' =>
             (if (bool_decide (dirname ∈ dirs) && negb islink)%bool
              then walk onerror body (Path.child top dirname) sub
              else mret tt) ;;
             descend l'
         end) subdirs
  end.

End os.

Section Indexer.

(** [mimetypes.guess_type(path)[0]], keyed by [str(path)]. *)
Variable guess_type : string -> option string.

Definition is_binary_file (file_path : Path.t) : M bool :=
  let mime_type := guess_type (Path.str file_path) in
  if match mime_type with
     | Some m => negb (Str.startswith m "text")
     | None => false
     end
  then
    log_info "Skipping binary file"
      {[ "file_path" := JStr (Path.str file_path) ]} ;;
    mret true
  else mret false.

Definition should_skip_file (file_path : Path.t) : M bool :=
  if bool_decide (Str.lower (Path.suffix file_path) ∈ SKIP_EXTS) then
    log_info "Skipping by extension"
      (<[ "file_name" := JStr (Path.name file_path) ]>
         {[ "file_path" := JStr (Path.str file_path) ]}) ;;
    incr_skipped ;;
    mret true
  else if bool_decide (Path.name file_path ∈ SKIP_FILES) then
    log_info "Skipping by filename"
      (<[ "file_name" := JStr (Path.name file_path) ]>
         {[ "file_path" := JStr (Path.str file_path) ]}) ;;
    incr_skipped ;;
    mret true
  else
    b ← is_binary_file file_path;
    if b : bool then incr_skipped ;; mret true
    else mret false.

(** [file_path.read_text(encoding="utf-8")] *)
Definition read_text (data : ReadOutcome) : M string :=
  match data with
  | Text content => mret content
  | Fails e => raise e
  end.

Definition read_text_file (file_path : Path.t) (data : ReadOutcome)
    (max_chars : Z) : M (option string) :=
  try_except
    (content ← read_text data;
     if Str.len content >? max_chars then
       log_info "Truncating large file"
         {[ "file_path" := JStr (Path.str file_path) ]} ;;
       mret (Some (Str.slice_to content max_chars +:+ TRUNCATION_MARKER))
     else mret (Some content))
    (λ e,
       log_warning "Unreadable file"
         (<[ "file_path" := JStr (Path.str file_path) ]>
            {[ "error" := JStr e ]}) ;;
       incr_errors ;;
       mret None).

(** The body of [for file in files]. *)
Definition index_file (repo_path root : Path.t) (f : FileEntry) : M unit :=
  let file := fname f in
  let file_path := Path.child root file in
  skip ← should_skip_file file_path;
  if skip : bool then mret tt
  else
    content ← read_text_file file_path (fdata f) DEFAULT_MAX_CHARS;
    match content with
    | Some content =>
        match Path.relative_to file_path repo_path with
        | Some rel_path =>
            log_info "Indexed file"
              (<[ "file_path" := JStr (Path.str file_path) ]>
              (<[ "file_name" := JStr file ]>
                 {[ "file_rel_path" := JStr (Path.rel_str rel_path) ]})) ;;
            append_index ("### " +:+ Path.rel_str rel_path +:+ NL +:+ content) ;;
            incr_indexed
        | None => raise "ValueError"
        end
    | None => mret tt
    end.

(** The body of [for root, dirs, files in os.walk(repo_path)]. *)
Definition visit (repo_path root : Path.t) (dirs : list string)
    (files : list FileEntry) : M (list string) :=
  let original_dirs := dirs in
  let dirs := filter (λ d, d ∉ SKIP_DIRS) dirs in
  let skipped_dirs : gset string :=
    list_to_set original_dirs ∖ list_to_set dirs in
  for_each (elements skipped_dirs) (λ d,
    log_info "Skipping directory"
      (<[ "file_name" := JStr d ]>
         {[ "file_path" := JStr (Path.str (Path.child root d)) ]})) ;;
  for_each files (index_file repo_path root) ;;
  mret dirs.

(** [index_repo], on a path that is already resolved.  [fs] is the
    directory found at [repo_path]. *)
Definition index_repo (repo_path : Path.t) (fs : Tree) : M string :=
  set_metrics (mkMetrics 0 0 0 None) ;;
  log_info "Indexing repository"
    (<[ "event_name" := JStr "repo_scan_start" ]>
       {[ "file_path" := JStr (Path.str repo_path) ]}) ;;
  set_index [] ;;
  os.walk None (visit repo_path) repo_path fs ;;
  file_index ← get_index;
  let result := Str.join NL file_index in
  set_char_count (String.length result) ;;
  m ← get_metrics;
  log_info "Indexing complete"
    (<[ "event_name" := JStr "repo_scan_end" ]>
    (<[ "file_indexed" := JInt (Z.of_nat (indexed m)) ]>
    (<[ "file_skipped" := JInt (Z.of_nat (skipped m)) ]>
    (<[ "file_errors" := JInt (Z.of_nat (errors m)) ]>
       {[ "char_count" := JInt (from_option Z.of_nat 0 (char_count m)) ]})))) ;;
  mret result.

End Indexer.

(** ** Definitions used by the statements *)

(** The subdirectory loop of [os.walk], as a loop of its own. *)
Definition descend (onerror : option (string -> M unit))
    (body : Path.t -> list string -> list FileEntry -> M (list string))
    (top : Path.t) (dirs : list string)
    (subdirs : list (string * (bool * Tree))) : M unit :=
  for_each subdirs (λ entry,
    if (bool_decide (entry.1 ∈ dirs) && negb entry.2.1)%bool
    then os.walk onerror body (Path.child top entry.1) entry.2.2
    else mret tt).

(** The files a traversal visits, in traversal order, each with the path of
    its directory relative to the root of the walk: the files of a listed
    directory, then those of each subdirectory that is neither pruned nor a
    symbolic link. *)
Fixpoint visited (rel : Path.t) (t : Tree) : list (Path.t * FileEntry) :=
  match t with
  | ScanFailed _ => []
  | Scanned files subdirs =>
      ((λ f, (rel, f)) <$> files) ++
      (fix below (l : list (string * (bool * Tree))) :=
         match l with
         | [] => []
         | (dirname, (islink, sub)) :: l' =>
             (if (bool_decide (dirname ∉ SKIP_DIRS) && negb islink)%bool
              then visited (Path.child rel dirname) sub
              else []) ++ below l'
         end) subdirs
  end.

Definition visited_below (rel : Path.t)
    (subdirs : list (string * (bool * Tree))) : list (Path.t * FileEntry) :=
  flat_map (λ entry,
    if (bool_decide (entry.1 ∉ SKIP_DIRS) && negb entry.2.1)%bool
    then visited (Path.child rel entry.1) entry.2.2
    else []) subdirs.

(** A directory somewhere beneath the root of a walk, and the tree that has
    [t] at that place. *)
Inductive Ctx :=
| Here
| Below (files : list FileEntry) (before : list (string * (bool * Tree)))
    (dirname : string) (islink : bool) (c : Ctx)
    (after : list (string * (bool * Tree))).

Fixpoint plug (c : Ctx) (t : Tree) : Tree :=
  match c with
  | Here => t
  | Below files before dirname islink c' after =>
      Scanned files (before ++ (dirname, (islink, plug c' t)) :: after)
  end.

(** The five outcomes of a visited file. *)
Inductive Class :=
| Indexed
| SkippedByExtension
| SkippedByName
| SkippedBinary
| ReadError.

(** The record that closes the processing of a file of each class, and the
    counter that the class increments. *)
Definition class_message (c : Class) : string :=
  match c with
  | Indexed => "Indexed file"
  | SkippedByExtension => "Skipping by extension"
  | SkippedByName => "Skipping by filename"
  | SkippedBinary => "Skipping binary file"
  | ReadError => "Unreadable file"
  end.

Definition bump (c : Class) (m : Metrics) : Metrics :=
  match c with
  | Indexed => mkMetrics (S (indexed m)) (skipped m) (errors m) (char_count m)
  | ReadError => mkMetrics (indexed m) (skipped m) (S (errors m)) (char_count m)
  | _ => mkMetrics (indexed m) (S (skipped m)) (errors m) (char_count m)
  end.

(** Processing a file from [st] to [st'] put it in class [c]: the class's
    counter went up by one, the others are unchanged, and the last record
    written is the class's. *)
Definition classified (c : Class) (st st' : State) : Prop :=
  metrics st' = bump c (metrics st) ∧
  ∃ evs r, stderr st' = stderr st ++ evs ++ [r] ∧ msg r = class_message c.

Definition total (m : Metrics) : nat := (indexed m + skipped m + errors m)%nat.

(** The verdict of the content-type rule on a path. *)
Definition nontext (guess_type : string -> option string) (file_path : Path.t) : bool :=
  match guess_type (Path.str file_path) with
  | Some m => negb (Str.startswith m "text")
  | None => false
  end.

(** The section a visited file contributes, in the words of the
    specification: none when a skip rule matches or the read fails,
    otherwise the header with the relative path followed by the content,
    cut to the limit and marked when it is longer. *)
Definition skip_rule (guess_type : string -> option string) (file_path : Path.t) : bool :=
  (bool_decide (Str.lower (Path.suffix file_path) ∈ SKIP_EXTS)
   || bool_decide (Path.name file_path ∈ SKIP_FILES)
   || nontext guess_type file_path)%bool.

Definition stored_content (data : ReadOutcome) : option string :=
  match data with
  | Text content =>
      if (Z.to_nat DEFAULT_MAX_CHARS <? String.length content)%nat
      then Some (Str.take (Z.to_nat DEFAULT_MAX_CHARS) content +:+ TRUNCATION_MARKER)
      else Some content
  | Fails _ => None
  end.

Definition section_of (guess_type : string -> option string) (repo_path : Path.t)
    (v : Path.t * FileEntry) : option string :=
  let rel_path := v.1 ++ [fname v.2] in
  if skip_rule guess_type (repo_path ++ rel_path) then None
  else
    content ← stored_content (fdata v.2);
    Some ("### " +:+ Str.join "/" rel_path +:+ NL +:+ content).

(** The severity code of a textual level, in the words of the
    specification. *)
Definition severity_code (severity_text : string) : Z :=
  if String.eqb severity_text "DEBUG" then 5
  else if String.eqb severity_text "INFO" then 9
  else if String.eqb severity_text "WARNING" then 13
  else if String.eqb severity_text "ERROR" then 17
  else if String.eqb severity_text "CRITICAL" then 21
  else 1.

(** The keyword arguments that the call sites of this module pass. *)
Definition EXTRA_KEYS : gset string :=
  {[ "event_name"; "file_path"; "file_name"; "file_rel_path"; "error";
     "file_indexed"; "file_skipped"; "file_errors"; "char_count" ]}.

(** A record as this module's call sites make it: through [log_info] or
    [log_warning], with keyword arguments among [EXTRA_KEYS]. *)
Definition module_record (r : LogRecord) : Prop :=
  (levelno r = logging.INFO ∨ levelno r = logging.WARNING) ∧
  name r = logger_name ∧
  ∃ kwargs, extra r = Some kwargs ∧ dom kwargs ⊆ EXTRA_KEYS.

(** *** The records of the call sites *)

Definition info_record (message : string) (kwargs : gmap string JValue) : LogRecord :=
  mkLogRecord logging.INFO logger_name "log_info" message (Some kwargs).

Definition warning_record (message : string) (kwargs : gmap string JValue) : LogRecord :=
  mkLogRecord logging.WARNING logger_name "log_warning" message (Some kwargs).

Definition binary_record (file_path : Path.t) : LogRecord :=
  info_record "Skipping binary file" {[ "file_path" := JStr (Path.str file_path) ]}.

Definition extension_record (file_path : Path.t) : LogRecord :=
  info_record "Skipping by extension"
    (<[ "file_name" := JStr (Path.name file_path) ]>
       {[ "file_path" := JStr (Path.str file_path) ]}).

Definition filename_record (file_path : Path.t) : LogRecord :=
  info_record "Skipping by filename"
    (<[ "file_name" := JStr (Path.name file_path) ]>
       {[ "file_path" := JStr (Path.str file_path) ]}).

Definition truncating_record (file_path : Path.t) : LogRecord :=
  info_record "Truncating large file" {[ "file_path" := JStr (Path.str file_path) ]}.

Definition unreadable_record (file_path : Path.t) (e : string) : LogRecord :=
  warning_record "Unreadable file"
    (<[ "file_path" := JStr (Path.str file_path) ]> {[ "error" := JStr e ]}).

Definition indexed_record (file_path rel_path : Path.t) (file : string) : LogRecord :=
  info_record "Indexed file"
    (<[ "file_path" := JStr (Path.str file_path) ]>
    (<[ "file_name" := JStr file ]>
       {[ "file_rel_path" := JStr (Path.rel_str rel_path) ]})).

Definition skipping_directory_record (root : Path.t) (d : string) : LogRecord :=
  info_record "Skipping directory"
    (<[ "file_name" := JStr d ]>
       {[ "file_path" := JStr (Path.str (Path.child root d)) ]}).

Definition start_record (repo_path : Path.t) : LogRecord :=
  info_record "Indexing repository"
    (<[ "event_name" := JStr "repo_scan_start" ]>
       {[ "file_path" := JStr (Path.str repo_path) ]}).

Definition complete_record (m : Metrics) : LogRecord :=
  info_record "Indexing complete"
    (<[ "event_name" := JStr "repo_scan_end" ]>
    (<[ "file_indexed" := JInt (Z.of_nat (indexed m)) ]>
    (<[ "file_skipped" := JInt (Z.of_nat (skipped m)) ]>
    (<[ "file_errors" := JInt (Z.of_nat (errors m)) ]>
       {[ "char_count" := JInt (from_option Z.of_nat 0 (char_count m)) ]})))).

(** A record that reports the pruning of directory [d] of [root]. *)
Definition reports_pruned (root : Path.t) (d : string) (r : LogRecord) : Prop :=
  msg r = "Skipping directory" ∧
  extra r ≫= lookup "file_name" = Some (JStr d) ∧
  extra r ≫= lookup "file_path" = Some (JStr (Path.str (Path.child root d))).

#[global] Instance reports_pruned_dec root d r : Decision (reports_pruned root d r).
Proof. unfold reports_pruned. apply _. Defined.

(** *** State changes *)

Definition emit (r : LogRecord) (st : State) : State :=
  mkState (metrics st) (file_index st) (stderr st ++ [r]).

Definition emit_all (rs : list LogRecord) (st : State) : State :=
  mkState (metrics st) (file_index st) (stderr st ++ rs).

Definition with_metrics (m : Metrics) (st : State) : State :=
  mkState m (file_index st) (stderr st).

(** The names that [visit] reports as pruned. *)
Definition skipped_dirs (dirs : list string) : gset string :=
  list_to_set dirs ∖ list_to_set (filter (λ d, d ∉ SKIP_DIRS) dirs).

(** The state after the loop body ran on the file [f] of the directory
    [rel] of the repository. *)
Definition file_step (guess_type : string -> option string)
    (repo_path rel : Path.t) (f : FileEntry) (st : State) : State :=
  let file_path := Path.child (repo_path ++ rel) (fname f) in
  if bool_decide (Str.lower (Path.suffix file_path) ∈ SKIP_EXTS) then
    with_metrics (bump SkippedByExtension (metrics st))
      (emit (extension_record file_path) st)
  else if bool_decide (Path.name file_path ∈ SKIP_FILES) then
    with_metrics (bump SkippedByName (metrics st))
      (emit (filename_record file_path) st)
  else if nontext guess_type file_path then
    with_metrics (bump SkippedBinary (metrics st))
      (emit (binary_record file_path) st)
  else
    match fdata f with
    | Fails e =>
        with_metrics (bump ReadError (metrics st))
          (emit (unreadable_record file_path e) st)
    | Text content =>
        let long := Str.len content >? DEFAULT_MAX_CHARS in
        let stored :=
          if long
          then Str.slice_to content DEFAULT_MAX_CHARS +:+ TRUNCATION_MARKER
          else content in
        let st1 := if long then emit (truncating_record file_path) st else st in
        let rel_path := rel ++ [fname f] in
        mkState (bump Indexed (metrics st))
          (file_index st ++ ["### " +:+ Path.rel_str rel_path +:+ NL +:+ stored])
          (stderr st1 ++ [indexed_record file_path rel_path (fname f)])
    end.

(** From [st] to [st'] the files [vs] were visited: their sections were
    appended in order, the three counters together went up by one per file,
    and only records of this module were written. *)
Definition run_delta (guess_type : string -> option string) (repo_path : Path.t)
    (vs : list (Path.t * FileEntry)) (st st' : State) : Prop :=
  file_index st' = file_index st ++ omap (section_of guess_type repo_path) vs ∧
  total (metrics st') = (total (metrics st) + length vs)%nat ∧
  char_count (metrics st') = char_count (metrics st) ∧
  ∃ evs, stderr st' = stderr st ++ evs ∧ Forall module_record evs.

Definition walk_ok (guess_type : string -> option string) (repo_path : Path.t)
    (t : Tree) : Prop :=
  ∀ rel st, ∃ st',
    os.walk None (visit guess_type repo_path) (repo_path ++ rel) t st = Ok tt st' ∧
    run_delta guess_type repo_path (visited rel t) st st'.

(** *** Sample inputs *)

Definition fresh : State := mkState (mkMetrics 0 0 0 None) [] [].

(** A content-type guesser that knows no type. *)
Definition no_guess (path : string) : option string := None.

(** A repository holding one file that cannot be read. *)
Definition unreadable_repo : Tree :=
  Scanned [mkFile "notes.txt" (Fails "Permission denied")] [].

(** A repository holding one file and a directory that cannot be listed. *)
Definition locked_repo : Tree :=
  Scanned [mkFile "a.txt" (Text "hello")]
    [("locked", (false, ScanFailed "Permission denied"))].

(** ** Definitions used by the further properties *)

(** [count p l]: the number of elements of [l] that satisfy [p]. *)
Fixpoint count {A} (p : A -> bool) (l : list A) : nat :=
  match l with
  | [] => 0%nat
  | x :: l' => ((if p x then 1 else 0) + count p l')%nat
  end.

(** The three fates of a visited file, decided as the loop body decides
    them: a skip rule matches; none matches and the read fails; none
    matches and the read succeeds. *)
Definition is_skipped (guess_type : string -> option string) (repo_path : Path.t)
    (v : Path.t * FileEntry) : bool :=
  skip_rule guess_type (Path.child (repo_path ++ v.1) (fname v.2)).

Definition is_unreadable (guess_type : string -> option string) (repo_path : Path.t)
    (v : Path.t * FileEntry) : bool :=
  (negb (is_skipped guess_type repo_path v) &&
   match fdata v.2 with Fails _ => true | Text _ => false end)%bool.

Definition is_indexed (guess_type : string -> option string) (repo_path : Path.t)
    (v : Path.t * FileEntry) : bool :=
  (negb (is_skipped guess_type repo_path v) &&
   match fdata v.2 with Text _ => true | Fails _ => false end)%bool.

Definition is_warning (r : LogRecord) : bool :=
  Nat.eqb (levelno r) logging.WARNING.

Definition is_indexed_record (r : LogRecord) : bool :=
  String.eqb (msg r) "Indexed file".

(** A record written through [log_info] or through [log_warning]. *)
Definition wrapper_record (r : LogRecord) : Prop :=
  (levelno r = logging.INFO ∧ funcName r = "log_info" ∨
   levelno r = logging.WARNING ∧ funcName r = "log_warning") ∧
  name r = logger_name.

(** The keyword argument [k] of a record. *)
Definition field (r : LogRecord) (k : string) : option JValue :=
  extra r ≫= lookup k.

(** The keys that [format] always sets. *)
Definition BASE_KEYS : gset string :=
  {[ "timestamp"; "severity_text"; "severity_number"; "message"; "trace_id";
     "logger.name"; "code.function" ]}.

(** [st] with the records [pre] written to the stream before its own. *)
Definition prepend (pre : list LogRecord) (st : State) : State :=
  mkState (metrics st) (file_index st) (pre ++ stderr st).

(** A computation that only appends to the stream: started with more
    records already written, it does the same and leaves them in front. *)
Definition log_frame {A} (m : M A) : Prop :=
  ∀ pre st,
    m (prepend pre st) =
    match m st with
    | Ok a st' => Ok a (prepend pre st')
    | Raise e st' => Raise e (prepend pre st')
    end.

(** What a stretch of the traversal over the files [vs] does to each
    counter, to the file index and to the stream. *)
Definition run_counts (guess_type : string -> option string) (repo_path : Path.t)
    (vs : list (Path.t * FileEntry)) (st st' : State) : Prop :=
  indexed (metrics st') =
    (indexed (metrics st) + count (is_indexed guess_type repo_path) vs)%nat ∧
  skipped (metrics st') =
    (skipped (metrics st) + count (is_skipped guess_type repo_path) vs)%nat ∧
  errors (metrics st') =
    (errors (metrics st) + count (is_unreadable guess_type repo_path) vs)%nat ∧
  (∃ secs,
     file_index st' = file_index st ++ secs ∧
     length secs = count (is_indexed guess_type repo_path) vs ∧
     Forall (λ s, Str.startswith s "### " = true) secs) ∧
  (∃ evs,
     stderr st' = stderr st ++ evs ∧
     Forall wrapper_record evs ∧
     count is_warning evs = count (is_unreadable guess_type repo_path) vs ∧
     count is_indexed_record evs = count (is_indexed guess_type repo_path) vs).

(** The traversal of [t] ends and relates its first and last state by [R],
    at the files it visits. *)
Definition walk_rel_at (guess_type : string -> option string) (repo_path : Path.t)
    (R : list (Path.t * FileEntry) → State → State → Prop) (t : Tree) : Prop :=
  ∀ rel st, ∃ st',
    os.walk None (visit guess_type repo_path) (repo_path ++ rel) t st = Ok tt st' ∧
    R (visited rel t) st st'.

(** The state in which the traversal of a run starts. *)
Definition start_state (repo_path : Path.t) (st : State) : State :=
  mkState (mkMetrics 0 0 0 None) [] (stderr st ++ [start_record repo_path]).

(** The result of a run whose traversal ended in [st1]. *)
Definition finish (st1 : State) : Result string :=
  let doc := Str.join NL (file_index st1) in
  let m := mkMetrics (indexed (metrics st1)) (skipped (metrics st1))
             (errors (metrics st1)) (Some (String.length doc)) in
  Ok doc (mkState m (file_index st1) (stderr st1 ++ [complete_record m])).

(** The record that [log_error] writes. *)
Definition error_record (message : string) (kwargs : gmap string JValue) : LogRecord :=
  mkLogRecord logging.ERROR logger_name "log_error" message (Some kwargs).

(** A repository in which only a pruned directory and a directory that
    cannot be listed are found. *)
Definition hollow_repo : Tree :=
  Scanned []
    [(".git", (false, Scanned [mkFile "config" (Text "[core]")] []));
     ("locked", (false, ScanFailed "Permission denied"))].

(** ** Definitions used by the run-level statement on pruned directories *)

(** [s] holds no slash. *)
Fixpoint slash_free (s : string) : bool :=
  match s with
  | EmptyString => true
  | String a s' => (negb (Ascii.eqb a "/"%char) && slash_free s')%bool
  end.

(** A tree as a file system holds it: in every directory the names of the
    subdirectories are distinct and hold no slash. *)
Fixpoint well_named (t : Tree) : bool :=
  match t with
  | ScanFailed _ => true
  | Scanned _ subdirs =>
      (bool_decide (NoDup (fst <$> subdirs)) &&
       (fix all (l : list (string * (bool * Tree))) : bool :=
          match l with
          | [] => true
          | (dirname, (_, sub)) :: l' =>
              slash_free dirname && well_named sub && all l'
          end) subdirs)%bool
  end.

(** The place of a context is reached by the traversal: no directory on the
    way to it is pruned or is a symbolic link. *)
Fixpoint reached (c : Ctx) : bool :=
  match c with
  | Here => true
  | Below _ _ dirname islink c' _ =>
      (bool_decide (dirname ∉ SKIP_DIRS) && negb islink && reached c')%bool
  end.

(** The path from the root of the walk to the place of a context. *)
Fixpoint ctx_path (c : Ctx) : Path.t :=
  match c with
  | Here => []
  | Below _ _ dirname _ c' _ => dirname :: ctx_path c'
  end.

(** The computation [m] ends and writes exactly [n] records that satisfy
    [P]. *)
Definition writes_n (P : LogRecord → Prop) `{∀ r, Decision (P r)}
    (n : nat) (m : M unit) : Prop :=
  ∀ st, ∃ st' evs,
    m st = Ok tt st' ∧ stderr st' = stderr st ++ evs ∧
    length (filter P evs) = n.

(** A repository with a pruned directory two levels down. *)
Definition nested_repo : Tree :=
  Scanned [mkFile "README.md" (Text "hi")]
    [("docs", (false, Scanned [] []));
     ("web", (false,
        Scanned [mkFile "app.js" (Text "let x")]
          [("node_modules", (false, Scanned [mkFile "c.txt" (Text "ignored")] []))]))].

(** ** Reasoning principles *)

Lemma Tree_ind (P : Tree → Prop) :
  (∀ files subdirs,
      Forall (λ entry, P entry.2.2) subdirs → P (Scanned files subdirs)) →
  (∀ e, P (ScanFailed e)) →
  ∀ t, P t.
Proof.
  intros Hscan Hfail.
  fix IH 1. intros [files subdirs | e]; [| apply Hfail].
  apply Hscan.
  induction subdirs as [| [dirname [islink sub]] l IHl]; constructor.
  - simpl. apply IH.
  - exact IHl.
Qed.

Ltac solve_keys := apply (bool_decide_unpack _); vm_compute; reflexivity.

(** ** Sample evaluations *)

Example suffix_upper_case : Path.suffix ["repo"; "img"; "Logo.PNG"] = ".PNG".
Proof. reflexivity. Qed.

Example suffix_dotfile : Path.suffix ["repo"; ".gitignore"] = "".
Proof. reflexivity. Qed.

Example suffix_trailing_dot : Path.suffix ["repo"; "notes."] = "".
Proof. reflexivity. Qed.

Example suffix_last_of_two : Path.suffix ["repo"; "a.tar.zip"] = ".zip".
Proof. reflexivity. Qed.

Example extension_rule_ignores_case :
  bool_decide (Str.lower (Path.suffix ["repo"; "Logo.PNG"]) ∈ SKIP_EXTS) = true.
Proof. vm_compute. reflexivity. Qed.

Example prune_rule_is_case_sensitive :
  filter (λ d, d ∉ SKIP_DIRS) ["src"; ".git"; ".Git"; "node_modules"] = ["src"; ".Git"].
Proof. vm_compute. reflexivity. Qed.

(** With a handler that re-raises, a listing error would end the walk;
    [index_repo] passes none. *)
Example walk_with_raising_handler :
  os.walk (Some raise) (λ _ dirs _, mret dirs) ["repo"]
    (ScanFailed "Permission denied") fresh =
  Raise "Permission denied" fresh.
Proof. reflexivity. Qed.

(** ** Strings and paths *)

Lemma take_length (n : nat) (s : string) :
  (n ≤ String.length s)%nat → String.length (Str.take n s) = n.
Proof.
  revert s. induction n as [| n IH]; intros [| a s] Hn; simpl in *;
    try reflexivity; try lia.
  f_equal. apply IH. lia.
Qed.

Lemma take_take_append (n : nat) (s tail : string) :
  (n ≤ String.length s)%nat → Str.take n (Str.take n s +:+ tail) = Str.take n s.
Proof.
  revert s. induction n as [| n IH]; intros [| a s] Hn; simpl in *;
    try reflexivity; try lia.
  f_equal. apply IH. lia.
Qed.

Lemma append_length (s1 s2 : string) :
  String.length (s1 +:+ s2) = (String.length s1 + String.length s2)%nat.
Proof. induction s1 as [| a s1 IH]; simpl; [reflexivity | by rewrite IH]. Qed.

Lemma slice_to_of_nat (s : string) (n : nat) :
  Str.slice_to s (Z.of_nat n) = Str.take n s.
Proof.
  unfold Str.slice_to.
  destruct (Z.leb_spec 0 (Z.of_nat n)); [by rewrite Nat2Z.id | lia].
Qed.

Lemma len_gtb_of_nat (s : string) (n : nat) :
  (Str.len s >? Z.of_nat n) = (n <? String.length s)%nat.
Proof.
  unfold Str.len. apply eq_true_iff_eq. rewrite Z.gtb_gt, Nat.ltb_lt. lia.
Qed.

Lemma len_gt_default (content : string) :
  (Str.len content >? DEFAULT_MAX_CHARS) =
  (Z.to_nat DEFAULT_MAX_CHARS <? String.length content)%nat.
Proof.
  rewrite <- len_gtb_of_nat. reflexivity.
Qed.

Lemma slice_to_default (content : string) :
  Str.slice_to content DEFAULT_MAX_CHARS =
  Str.take (Z.to_nat DEFAULT_MAX_CHARS) content.
Proof. reflexivity. Qed.

Lemma rfind_absent (c : ascii) (s : string) :
  (∀ i, String.get i s ≠ Some c) → Str.rfind c s = -1.
Proof.
  induction s as [| a s IH]; intros Hget; [reflexivity |].
  simpl. rewrite IH by (intros i; apply (Hget (S i))). simpl.
  destruct (Ascii.eqb_spec a c) as [-> | _]; [| reflexivity].
  by destruct (Hget 0%nat).
Qed.

Lemma join_cons (sep x y : string) (l : list string) :
  Str.join sep (x :: y :: l) = x +:+ sep +:+ Str.join sep (y :: l).
Proof. reflexivity. Qed.

Lemma join_length (sep : string) (l : list string) :
  String.length (Str.join sep l) =
  (sum_list (String.length <$> l) + (length l - 1) * String.length sep)%nat.
Proof.
  induction l as [| x [| y l] IH]; [reflexivity | simpl; lia |].
  rewrite join_cons, !append_length, IH. simpl. lia.
Qed.

Lemma relative_to_app (base rel : Path.t) :
  Path.relative_to (base ++ rel) base = Some rel.
Proof.
  induction base as [| b base IH]; simpl; [reflexivity |].
  by rewrite String.eqb_refl.
Qed.

Lemma relative_to_child (base rel : Path.t) (file : string) :
  Path.relative_to (Path.child (base ++ rel) file) base = Some (rel ++ [file]).
Proof. unfold Path.child. by rewrite <- (assoc_L (++)), relative_to_app. Qed.

Lemma name_child (p : Path.t) (file : string) :
  Path.name (Path.child p file) = file.
Proof. unfold Path.name, Path.child. apply last_last. Qed.

Lemma rel_str_child (rel : Path.t) (file : string) :
  Path.rel_str (rel ++ [file]) = Str.join "/" (rel ++ [file]).
Proof. by destruct rel. Qed.

(** ** Lists and sets *)

Lemma filter_none {A} (P : A → Prop) `{∀ x, Decision (P x)} (l : list A) :
  Forall (λ x, ¬ P x) l → filter P l = [].
Proof.
  induction 1 as [| x l Hx Hl IH]; [reflexivity |].
  by rewrite filter_cons_False.
Qed.

Lemma elem_of_skipped_dirs (d : string) (dirs : list string) :
  d ∈ skipped_dirs dirs ↔ d ∈ dirs ∧ d ∈ SKIP_DIRS.
Proof.
  unfold skipped_dirs.
  rewrite elem_of_difference, !elem_of_list_to_set, list_elem_of_filter.
  destruct (decide (d ∈ SKIP_DIRS)); tauto.
Qed.

(** ** Loops and the generator *)

Lemma for_each_app {A} (l1 l2 : list A) (body : A → M unit) st :
  for_each (l1 ++ l2) body st =
  match for_each l1 body st with
  | Ok _ st' => for_each l2 body st'
  | Raise e st' => Raise e st'
  end.
Proof.
  revert st. induction l1 as [| x l1 IH]; intros st; [reflexivity |].
  simpl. unfold mbind, M_bind. destruct (body x st); [apply IH | reflexivity].
Qed.

Lemma walk_scanned onerror body top files subdirs st :
  os.walk onerror body top (Scanned files subdirs) st =
  match body top (fst <$> subdirs) files st with
  | Ok dirs st' => descend onerror body top dirs subdirs st'
  | Raise e st' => Raise e st'
  end.
Proof.
  simpl. unfold mbind, M_bind.
  destruct (body top (fst <$> subdirs) files st) as [dirs st' | e st']; [| reflexivity].
  unfold descend. generalize st'. clear.
  induction subdirs as [| [dirname [islink sub]] l IHl]; intros st; [reflexivity |].
  simpl. unfold mbind, M_bind.
  destruct (bool_decide (dirname ∈ dirs) && negb islink)%bool; simpl.
  - destruct (os.walk onerror body (Path.child top dirname) sub st); [apply IHl | reflexivity].
  - apply IHl.
Qed.

Lemma visited_scanned rel files subdirs :
  visited rel (Scanned files subdirs) =
  ((λ f, (rel, f)) <$> files) ++ visited_below rel subdirs.
Proof.
  simpl. f_equal. unfold visited_below.
  induction subdirs as [| [dirname [islink sub]] l IHl]; [reflexivity |].
  simpl. by rewrite IHl.
Qed.

(** Two directories that a walk cannot tell apart can be exchanged anywhere
    in the tree. *)
Lemma walk_plug onerror body (t t' : Tree) :
  (∀ top st, os.walk onerror body top t st = os.walk onerror body top t' st) →
  ∀ c top st,
    os.walk onerror body top (plug c t) st = os.walk onerror body top (plug c t') st.
Proof.
  intros Heq. induction c as [| files before dirname islink c IH after]; intros top st.
  - apply Heq.
  - simpl plug. rewrite !walk_scanned, !fmap_app, !fmap_cons. simpl.
    destruct (body top _ files st) as [dirs st1 | e st1]; [| reflexivity].
    unfold descend. rewrite !for_each_app.
    destruct (for_each before _ st1) as [[] st2 | e st2]; [| reflexivity].
    simpl. unfold mbind, M_bind.
    destruct (bool_decide (dirname ∈ dirs) && negb islink)%bool; [| reflexivity].
    by rewrite IH.
Qed.

(** ** Records *)

Lemma log_info_run message kwargs st :
  kwargs !! "message" = None →
  log_info message kwargs st = Ok tt (emit (info_record message kwargs) st).
Proof. intros Hk. unfold log_info. by rewrite Hk. Qed.

Lemma log_warning_run message kwargs st :
  kwargs !! "message" = None →
  log_warning message kwargs st = Ok tt (emit (warning_record message kwargs) st).
Proof. intros Hk. unfold log_warning. by rewrite Hk. Qed.

Ltac no_message := by simplify_map_eq.

Lemma for_each_log_info {A} (l : list A) message (kwargs : A → gmap string JValue) st :
  (∀ x, kwargs x !! "message" = None) →
  for_each l (λ x, log_info message (kwargs x)) st =
  Ok tt (emit_all ((λ x, info_record message (kwargs x)) <$> l) st).
Proof.
  intros Hk. revert st. induction l as [| x l IH]; intros st; simpl.
  - unfold emit_all. rewrite app_nil_r. by destruct st.
  - unfold mbind, M_bind. rewrite log_info_run, IH by apply Hk.
    unfold emit_all, emit; simpl. by rewrite <- (assoc_L (++)).
Qed.

Lemma info_record_module message kwargs :
  dom kwargs ⊆ EXTRA_KEYS → module_record (info_record message kwargs).
Proof. intros Hd. split; [by left |]. split; [reflexivity |]. by exists kwargs. Qed.

Lemma warning_record_module message kwargs :
  dom kwargs ⊆ EXTRA_KEYS → module_record (warning_record message kwargs).
Proof. intros Hd. split; [by right |]. split; [reflexivity |]. by exists kwargs. Qed.

Lemma start_record_module repo_path : module_record (start_record repo_path).
Proof. apply info_record_module. solve_keys. Qed.

Lemma complete_record_module m : module_record (complete_record m).
Proof. apply info_record_module. solve_keys. Qed.

Lemma reports_pruned_record root d x :
  reports_pruned root d (skipping_directory_record root x) ↔ x = d.
Proof.
  unfold reports_pruned, skipping_directory_record, info_record; simpl.
  rewrite lookup_insert_eq, lookup_insert_ne, lookup_singleton_eq by done.
  split; [intros (_ & Hn & _); congruence | by intros ->].
Qed.

Lemma pruned_records_count root d (l : list string) :
  NoDup l → d ∈ l →
  length (filter (reports_pruned root d) (skipping_directory_record root <$> l)) = 1%nat.
Proof.
  intros Hnd Hd. induction Hnd as [| x l Hx Hnd IH]; [by apply elem_of_nil in Hd |].
  rewrite fmap_cons. destruct (decide (x = d)) as [-> | Hne].
  - rewrite filter_cons_True by by apply reports_pruned_record.
    simpl. f_equal. apply length_zero_iff_nil.
    clear IH Hd Hnd. induction l as [| y l IHl]; [reflexivity |].
    rewrite fmap_cons, filter_cons_False.
    + apply IHl. intros Hin. apply Hx. by right.
    + rewrite reports_pruned_record. intros ->. apply Hx. by left.
  - rewrite filter_cons_False by by rewrite reports_pruned_record.
    apply IH. by apply elem_of_cons in Hd as [-> |].
Qed.

Lemma classified_unique c c' st st' :
  classified c st st' → classified c' st st' → c = c'.
Proof.
  intros (_ & evs & r & He & Hm) (_ & evs' & r' & He' & Hm').
  rewrite He in He'. apply app_inv_head in He'.
  apply app_inj_tail in He' as [_ <-].
  rewrite Hm in Hm'. destruct c, c'; (reflexivity || discriminate).
Qed.

(** ** The formatter *)

Lemma severity_code_level (level : nat) :
  map_severity level = severity_code (logging.getLevelName level).
Proof.
  unfold map_severity, logging.getLevelName.
  destruct (Nat.eqb_spec level logging.CRITICAL) as [-> | _]; [reflexivity |].
  destruct (Nat.eqb_spec level logging.ERROR) as [-> | _]; [reflexivity |].
  destruct (Nat.eqb_spec level logging.WARNING) as [-> | _]; [reflexivity |].
  destruct (Nat.eqb_spec level logging.INFO) as [-> | _]; [reflexivity |].
  destruct (Nat.eqb_spec level logging.DEBUG) as [-> | _]; [reflexivity |].
  destruct (Nat.eqb_spec level 0) as [-> | _]; reflexivity.
Qed.

Lemma format_base_field TRACE_ID utcnow r kwargs k :
  extra r = Some kwargs → kwargs !! k = None →
  format TRACE_ID utcnow r !! k =
  format TRACE_ID utcnow
    (mkLogRecord (levelno r) (name r) (funcName r) (msg r) None) !! k.
Proof. intros He Hk. unfold format. rewrite He. simpl. by apply lookup_union_r. Qed.

Lemma format_extra_field TRACE_ID utcnow r kwargs k v :
  extra r = Some kwargs → kwargs !! k = Some v →
  format TRACE_ID utcnow r !! k = Some v.
Proof. intros He Hk. unfold format. rewrite He. by apply lookup_union_Some_l. Qed.

Lemma format_module_record TRACE_ID utcnow r :
  module_record r →
  format TRACE_ID utcnow r !! "trace_id" = Some (JStr TRACE_ID) ∧
  format TRACE_ID utcnow r !! "severity_text" =
    Some (JStr (logging.getLevelName (levelno r))) ∧
  format TRACE_ID utcnow r !! "severity_number" =
    Some (JInt (severity_code (logging.getLevelName (levelno r)))).
Proof.
  intros (_ & _ & kwargs & He & Hdom).
  assert (∀ k, k ∉ EXTRA_KEYS → kwargs !! k = None) as Hnone.
  { intros k Hk. apply not_elem_of_dom. intros Hin. by apply Hk, Hdom. }
  rewrite !(format_base_field _ _ r kwargs) by
    (try exact He; apply Hnone; apply (bool_decide_unpack _); vm_compute; reflexivity).
  unfold format; simpl. rewrite <- severity_code_level.
  repeat split; by simplify_map_eq.
Qed.

(** ** The indexer, function by function *)

Section IndexerFacts.

Variable guess_type : string -> option string.

Lemma is_binary_file_run file_path st :
  is_binary_file guess_type file_path st =
  if nontext guess_type file_path
  then Ok true (emit (binary_record file_path) st)
  else Ok false st.
Proof.
  unfold is_binary_file, nontext.
  destruct (guess_type (Path.str file_path)) as [m |]; [| reflexivity].
  destruct (negb (Str.startswith m "text")); reflexivity.
Qed.

Lemma should_skip_file_run file_path st :
  should_skip_file guess_type file_path st =
  if bool_decide (Str.lower (Path.suffix file_path) ∈ SKIP_EXTS) then
    Ok true (with_metrics (bump SkippedByExtension (metrics st))
               (emit (extension_record file_path) st))
  else if bool_decide (Path.name file_path ∈ SKIP_FILES) then
    Ok true (with_metrics (bump SkippedByName (metrics st))
               (emit (filename_record file_path) st))
  else if nontext guess_type file_path then
    Ok true (with_metrics (bump SkippedBinary (metrics st))
               (emit (binary_record file_path) st))
  else Ok false st.
Proof.
  unfold should_skip_file.
  destruct (bool_decide (Str.lower (Path.suffix file_path) ∈ SKIP_EXTS)); [reflexivity |].
  destruct (bool_decide (Path.name file_path ∈ SKIP_FILES)); [reflexivity |].
  unfold mbind, M_bind. rewrite is_binary_file_run.
  destruct (nontext guess_type file_path); reflexivity.
Qed.

Lemma read_text_file_run file_path data max_chars st :
  read_text_file file_path data max_chars st =
  match data with
  | Text content =>
      if Str.len content >? max_chars
      then Ok (Some (Str.slice_to content max_chars +:+ TRUNCATION_MARKER))
             (emit (truncating_record file_path) st)
      else Ok (Some content) st
  | Fails e =>
      Ok None (with_metrics (bump ReadError (metrics st))
                 (emit (unreadable_record file_path e) st))
  end.
Proof.
  destruct data as [content | e]; [| reflexivity].
  unfold read_text_file, try_except, mbind, M_bind; simpl.
  destruct (Str.len content >? max_chars); reflexivity.
Qed.

Lemma index_file_run repo_path rel f st :
  index_file guess_type repo_path (repo_path ++ rel) f st =
  Ok tt (file_step guess_type repo_path rel f st).
Proof.
  unfold index_file, file_step, mbind, M_bind.
  rewrite should_skip_file_run.
  destruct (bool_decide (Str.lower _ ∈ SKIP_EXTS)); [reflexivity |].
  destruct (bool_decide (Path.name _ ∈ SKIP_FILES)); [reflexivity |].
  destruct (nontext _ _); [reflexivity |].
  rewrite read_text_file_run.
  destruct (fdata f) as [content | e]; [| reflexivity].
  rewrite relative_to_child.
  destruct (Str.len content >? DEFAULT_MAX_CHARS); reflexivity.
Qed.

(** *** What a stretch of the traversal does to the state *)

Lemma run_delta_refl repo_path st : run_delta guess_type repo_path [] st st.
Proof.
  repeat split; simpl; [by rewrite app_nil_r | lia |].
  exists []. by rewrite app_nil_r.
Qed.

Lemma run_delta_trans repo_path vs1 vs2 st st1 st2 :
  run_delta guess_type repo_path vs1 st st1 →
  run_delta guess_type repo_path vs2 st1 st2 →
  run_delta guess_type repo_path (vs1 ++ vs2) st st2.
Proof.
  intros (Hi1 & Ht1 & Hc1 & evs1 & He1 & Hm1) (Hi2 & Ht2 & Hc2 & evs2 & He2 & Hm2).
  repeat split.
  - by rewrite Hi2, Hi1, omap_app, (assoc_L (++)).
  - rewrite Ht2, Ht1, length_app. lia.
  - congruence.
  - exists (evs1 ++ evs2). split; [by rewrite He2, He1, (assoc_L (++)) |].
    by apply Forall_app.
Qed.

Lemma run_delta_emit_all repo_path rs st :
  Forall module_record rs → run_delta guess_type repo_path [] st (emit_all rs st).
Proof.
  intros Hr. repeat split; simpl; [by rewrite app_nil_r | lia |].
  by exists rs.
Qed.

Lemma file_step_delta repo_path rel f st :
  run_delta guess_type repo_path [(rel, f)] st (file_step guess_type repo_path rel f st).
Proof.
  unfold run_delta, file_step, section_of, skip_rule, Path.child; simpl.
  rewrite <- (assoc_L (++)).
  destruct (bool_decide (Str.lower _ ∈ SKIP_EXTS)); simpl.
  { repeat split; [by rewrite app_nil_r | unfold total; simpl; lia |].
    eexists; split; [reflexivity |]. constructor; [| constructor].
    apply info_record_module. solve_keys. }
  destruct (bool_decide (_ ∈ SKIP_FILES)); simpl.
  { repeat split; [by rewrite app_nil_r | unfold total; simpl; lia |].
    eexists; split; [reflexivity |]. constructor; [| constructor].
    apply info_record_module. solve_keys. }
  destruct (nontext _ _); simpl.
  { repeat split; [by rewrite app_nil_r | unfold total; simpl; lia |].
    eexists; split; [reflexivity |]. constructor; [| constructor].
    apply info_record_module. solve_keys. }
  destruct (fdata f) as [content | e]; simpl.
  - rewrite len_gt_default, slice_to_default, rel_str_child.
    destruct (_ <? String.length content)%nat; simpl;
      (split; [reflexivity | split; [unfold total; simpl; lia | split; [reflexivity |]]]).
    + exists [truncating_record (repo_path ++ rel ++ [fname f]);
              indexed_record (repo_path ++ rel ++ [fname f]) (rel ++ [fname f]) (fname f)].
      split; [by rewrite <- (assoc_L (++)) |].
      repeat constructor; apply info_record_module; solve_keys.
    + eexists; split; [reflexivity |].
      repeat constructor; apply info_record_module; solve_keys.
  - repeat split; [by rewrite app_nil_r | unfold total; simpl; lia |].
    eexists; split; [reflexivity |]. constructor; [| constructor].
    apply warning_record_module. solve_keys.
Qed.

Lemma file_step_classified repo_path rel f st :
  ∃ c, classified c st (file_step guess_type repo_path rel f st).
Proof.
  unfold file_step, classified.
  destruct (bool_decide (Str.lower _ ∈ SKIP_EXTS)).
  { exists SkippedByExtension. split; [reflexivity |].
    by exists [], (extension_record (Path.child (repo_path ++ rel) (fname f))). }
  destruct (bool_decide (Path.name _ ∈ SKIP_FILES)).
  { exists SkippedByName. split; [reflexivity |].
    by exists [], (filename_record (Path.child (repo_path ++ rel) (fname f))). }
  destruct (nontext _ _).
  { exists SkippedBinary. split; [reflexivity |].
    by exists [], (binary_record (Path.child (repo_path ++ rel) (fname f))). }
  destruct (fdata f) as [content | e].
  - exists Indexed. split; [reflexivity |]. simpl.
    destruct (Str.len content >? DEFAULT_MAX_CHARS); simpl.
    + eexists [_], _. split; [by rewrite <- (assoc_L (++)) | reflexivity].
    + eexists [], _. split; reflexivity.
  - exists ReadError. split; [reflexivity |].
    by exists [], (unreadable_record (Path.child (repo_path ++ rel) (fname f)) e).
Qed.

Lemma file_step_events repo_path rel f st :
  ∃ evs, stderr (file_step guess_type repo_path rel f st) = stderr st ++ evs ∧
         Forall (λ r, msg r ≠ "Skipping directory") evs.
Proof.
  unfold file_step.
  destruct (bool_decide (Str.lower _ ∈ SKIP_EXTS)).
  { eexists [_]. split; [reflexivity |]. by repeat constructor. }
  destruct (bool_decide (Path.name _ ∈ SKIP_FILES)).
  { eexists [_]. split; [reflexivity |]. by repeat constructor. }
  destruct (nontext _ _).
  { eexists [_]. split; [reflexivity |]. by repeat constructor. }
  destruct (fdata f) as [content | e]; simpl.
  - destruct (Str.len content >? DEFAULT_MAX_CHARS); simpl.
    + eexists [_; _]. split; [by rewrite <- (assoc_L (++)) |]. by repeat constructor.
    + eexists [_]. split; [reflexivity |]. by repeat constructor.
  - eexists [_]. split; [reflexivity |]. by repeat constructor.
Qed.

(** *** The loops *)

Lemma for_each_files_step repo_path rel f files st :
  for_each (f :: files) (index_file guess_type repo_path (repo_path ++ rel)) st =
  for_each files (index_file guess_type repo_path (repo_path ++ rel))
    (file_step guess_type repo_path rel f st).
Proof. simpl. unfold mbind, M_bind. by rewrite index_file_run. Qed.

Lemma for_each_files_run repo_path rel files st :
  ∃ st',
    for_each files (index_file guess_type repo_path (repo_path ++ rel)) st = Ok tt st' ∧
    run_delta guess_type repo_path ((λ f, (rel, f)) <$> files) st st'.
Proof.
  revert st. induction files as [| f files IH]; intros st.
  - exists st. split; [reflexivity | apply run_delta_refl].
  - rewrite for_each_files_step.
    destruct (IH (file_step guess_type repo_path rel f st)) as (st' & Hrun & Hd).
    exists st'. split; [exact Hrun |].
    change ((λ f, (rel, f)) <$> f :: files)
      with ([(rel, f)] ++ ((λ f, (rel, f)) <$> files)).
    eapply run_delta_trans; [apply file_step_delta | exact Hd].
Qed.

Lemma for_each_files_events repo_path rel files st :
  ∃ st' evs,
    for_each files (index_file guess_type repo_path (repo_path ++ rel)) st = Ok tt st' ∧
    stderr st' = stderr st ++ evs ∧
    Forall (λ r, msg r ≠ "Skipping directory") evs.
Proof.
  revert st. induction files as [| f files IH]; intros st.
  - exists st, []. by rewrite app_nil_r.
  - rewrite for_each_files_step.
    destruct (IH (file_step guess_type repo_path rel f st))
      as (st' & evs2 & Hrun & He2 & Hm2).
    destruct (file_step_events repo_path rel f st) as (evs1 & He1 & Hm1).
    exists st', (evs1 ++ evs2). split; [exact Hrun |].
    split; [by rewrite He2, He1, (assoc_L (++)) | by apply Forall_app].
Qed.

Lemma visit_run repo_path root dirs files st :
  visit guess_type repo_path root dirs files st =
  match
    for_each files (index_file guess_type repo_path root)
      (emit_all (skipping_directory_record root <$> elements (skipped_dirs dirs)) st)
  with
  | Ok _ st' => Ok (filter (λ d, d ∉ SKIP_DIRS) dirs) st'
  | Raise e st' => Raise e st'
  end.
Proof.
  unfold visit, mbind, M_bind.
  rewrite (for_each_log_info _ "Skipping directory"
    (λ d, <[ "file_name" := JStr d ]>
            {[ "file_path" := JStr (Path.str (Path.child root d)) ]}));
    [reflexivity | intros d; no_message].
Qed.

Lemma visit_delta repo_path rel dirs files st :
  ∃ st',
    visit guess_type repo_path (repo_path ++ rel) dirs files st =
      Ok (filter (λ d, d ∉ SKIP_DIRS) dirs) st' ∧
    run_delta guess_type repo_path ((λ f, (rel, f)) <$> files) st st'.
Proof.
  rewrite visit_run.
  destruct (for_each_files_run repo_path rel files
    (emit_all (skipping_directory_record (repo_path ++ rel) <$>
                 elements (skipped_dirs dirs)) st)) as (st' & -> & Hd).
  exists st'. split; [reflexivity |].
  change ((λ f, (rel, f)) <$> files) with ([] ++ ((λ f, (rel, f)) <$> files)).
  eapply run_delta_trans; [| exact Hd].
  apply run_delta_emit_all, Forall_fmap, Forall_forall. intros d _.
  apply info_record_module. solve_keys.
Qed.

(** *** The traversal *)

Lemma descend_delta repo_path rel dirs subdirs :
  (∀ entry, entry ∈ subdirs → entry.1 ∈ dirs ↔ entry.1 ∉ SKIP_DIRS) →
  Forall (λ entry, walk_ok guess_type repo_path entry.2.2) subdirs →
  ∀ st, ∃ st',
    descend None (visit guess_type repo_path) (repo_path ++ rel) dirs subdirs st =
      Ok tt st' ∧
    run_delta guess_type repo_path (visited_below rel subdirs) st st'.
Proof.
  intros Hdirs Hsub. induction Hsub as [| [dirname [islink sub]] l Hx Hl IH]; intros st.
  - exists st. split; [reflexivity | apply run_delta_refl].
  - unfold descend, visited_below in *. simpl in *. unfold mbind, M_bind.
    assert (bool_decide (dirname ∈ dirs) = bool_decide (dirname ∉ SKIP_DIRS)) as ->.
    { apply bool_decide_ext, (Hdirs (dirname, (islink, sub))). by left. }
    assert (∀ entry, entry ∈ l → entry.1 ∈ dirs ↔ entry.1 ∉ SKIP_DIRS) as Hl'.
    { intros entry He. apply Hdirs. by right. }
    destruct (bool_decide (dirname ∉ SKIP_DIRS) && negb islink)%bool.
    + destruct (Hx (Path.child rel dirname) st) as (st1 & Hrun & Hd1).
      unfold Path.child in *. rewrite <- (assoc_L (++)), Hrun.
      destruct (IH Hl' st1) as (st2 & Hrun2 & Hd2).
      exists st2. split; [exact Hrun2 |].
      eapply run_delta_trans; eassumption.
    + simpl. apply (IH Hl').
Qed.

Lemma walk_delta repo_path t : walk_ok guess_type repo_path t.
Proof.
  induction t as [files subdirs IH | e] using Tree_ind; intros rel st.
  - rewrite walk_scanned, visited_scanned.
    destruct (visit_delta repo_path rel (fst <$> subdirs) files st) as (st1 & -> & Hd1).
    destruct (descend_delta repo_path rel
                (filter (λ d, d ∉ SKIP_DIRS) (fst <$> subdirs)) subdirs) with (st := st1)
      as (st2 & Hrun & Hd2); [| exact IH |].
    + intros entry He. rewrite list_elem_of_filter.
      split; [tauto |]. intros Hn. split; [exact Hn |].
      by apply list_elem_of_fmap_2.
    + exists st2. split; [exact Hrun |].
      eapply run_delta_trans; eassumption.
  - exists st. split; [reflexivity | apply run_delta_refl].
Qed.

(** A pruned directory cannot be told from any other directory of the
    same name. *)
Lemma walk_pruned repo_path files before d islink sub sub' after top st :
  d ∈ SKIP_DIRS →
  os.walk None (visit guess_type repo_path) top
    (Scanned files (before ++ (d, (islink, sub)) :: after)) st =
  os.walk None (visit guess_type repo_path) top
    (Scanned files (before ++ (d, (islink, sub')) :: after)) st.
Proof.
  intros Hd. rewrite !walk_scanned, !fmap_app, !fmap_cons. simpl.
  rewrite visit_run.
  destruct (for_each files _ _) as [[] st1 | e st1]; [| reflexivity].
  unfold descend. rewrite !for_each_app.
  destruct (for_each before _ st1) as [[] st2 | e st2]; [| reflexivity].
  simpl. unfold mbind, M_bind.
  rewrite bool_decide_eq_false_2; [reflexivity |].
  rewrite list_elem_of_filter. tauto.
Qed.

(** A directory whose listing fails cannot be told from an empty one. *)
Lemma walk_scan_failed repo_path e top st :
  os.walk None (visit guess_type repo_path) top (ScanFailed e) st =
  os.walk None (visit guess_type repo_path) top (Scanned [] []) st.
Proof.
  rewrite walk_scanned, visit_run. simpl.
  unfold skipped_dirs. simpl. rewrite filter_nil. simpl.
  rewrite difference_diag_L, elements_empty. simpl.
  unfold emit_all. rewrite app_nil_r. by destruct st.
Qed.

Lemma index_repo_walk repo_path fs st :
  index_repo guess_type repo_path fs st =
  match os.walk None (visit guess_type repo_path) repo_path fs (start_state repo_path st) with
  | Ok _ st1 => finish st1
  | Raise e st1 => Raise e st1
  end.
Proof.
  unfold index_repo, mbind, M_bind, start_state, finish.
  unfold set_metrics at 1. rewrite log_info_run by no_message.
  unfold set_index, emit. cbn [metrics file_index stderr].
  destruct (os.walk None _ repo_path fs _) as [[] st1 | e st1]; [| reflexivity].
  unfold get_index, set_char_count, mbind, M_bind, get_metrics, set_metrics.
  cbn [metrics file_index stderr indexed skipped errors char_count].
  rewrite log_info_run by no_message.
  reflexivity.
Qed.

Lemma index_repo_plug repo_path (t t' : Tree) :
  (∀ top st, os.walk None (visit guess_type repo_path) top t st =
             os.walk None (visit guess_type repo_path) top t' st) →
  ∀ c st, index_repo guess_type repo_path (plug c t) st =
          index_repo guess_type repo_path (plug c t') st.
Proof.
  intros Heq c st. rewrite !index_repo_walk.
  by rewrite (walk_plug _ _ t t' Heq).
Qed.

(** A run returns the join of the file index it built; what it did is
    described by [run_delta] from the fresh objects it starts with. *)
Lemma index_repo_run repo_path fs st :
  ∃ st1 evs,
    let doc := Str.join NL (file_index st1) in
    let m := mkMetrics (indexed (metrics st1)) (skipped (metrics st1))
               (errors (metrics st1)) (Some (String.length doc)) in
    index_repo guess_type repo_path fs st =
      Ok doc (mkState m (file_index st1)
                (stderr st ++ [start_record repo_path] ++ evs ++ [complete_record m])) ∧
    file_index st1 = omap (section_of guess_type repo_path) (visited [] fs) ∧
    total (metrics st1) = length (visited [] fs) ∧
    Forall module_record evs.
Proof.
  destruct (walk_delta repo_path fs []
    (mkState (mkMetrics 0 0 0 None) [] (stderr st ++ [start_record repo_path])))
    as (st1 & Hrun & Hi & Ht & Hc & evs & He & Hm).
  rewrite app_nil_r in Hrun.
  cbn [metrics file_index stderr app length Nat.add omap] in Hi, Ht, Hc, He.
  exists st1, evs. repeat split; try assumption.
  rewrite index_repo_walk. unfold start_state. rewrite Hrun.
  unfold finish. rewrite He.
  by rewrite <- !(assoc_L (++)).
Qed.

End IndexerFacts.


(** ** Paths as strings *)

Lemma append_inv_head (s a b : string) : s +:+ a = s +:+ b → a = b.
Proof.
  induction s as [| c s IH]; [done |]. simpl. intros [= Heq]. by apply IH.
Qed.

Lemma slash_free_joined (y z : string) : slash_free (y +:+ "/" +:+ z) = false.
Proof.
  induction y as [| c y IH]; [reflexivity |].
  simpl. rewrite IH. apply andb_false_r.
Qed.

Lemma append_cons (c : ascii) (x s : string) :
  String c x +:+ s = String c (x +:+ s).
Proof. reflexivity. Qed.

Lemma append_empty_l (s : string) : "" +:+ s = s.
Proof. reflexivity. Qed.

Lemma slash_free_split (x y a b : string) :
  slash_free x = true → slash_free y = true →
  x +:+ "/" +:+ a = y +:+ "/" +:+ b → x = y ∧ a = b.
Proof.
  revert y. induction x as [| c x IH]; intros [| c' y] Hx Hy;
    rewrite ?append_cons, ?append_empty_l.
  - by intros [= ->].
  - intros [= <- _]. discriminate.
  - intros [= -> _]. discriminate.
  - simpl in Hx, Hy.
    apply andb_true_iff in Hx as [_ Hx]. apply andb_true_iff in Hy as [_ Hy].
    intros [= -> Heq]. destruct (IH y Hx Hy Heq) as [-> ->]. done.
Qed.

Lemma join_slash_inj (l1 l2 : list string) :
  l1 ≠ [] → l2 ≠ [] →
  Forall (λ s, slash_free s = true) l1 → Forall (λ s, slash_free s = true) l2 →
  Str.join "/" l1 = Str.join "/" l2 → l1 = l2.
Proof.
  revert l2. induction l1 as [| x l1 IH]; intros [| y l2] Hn1 Hn2 H1 H2; try done.
  apply Forall_cons in H1 as [Hx H1]. apply Forall_cons in H2 as [Hy H2].
  destruct l1 as [| x' l1], l2 as [| y' l2].
  - simpl. by intros ->.
  - rewrite join_cons. change (Str.join "/" [x]) with x. intros ->.
    by rewrite slash_free_joined in Hx.
  - rewrite join_cons. change (Str.join "/" [y]) with y. intros <-.
    by rewrite slash_free_joined in Hy.
  - rewrite !join_cons. intros Heq.
    destruct (slash_free_split _ _ _ _ Hx Hy Heq) as [-> Hrest].
    f_equal. by apply IH.
Qed.

Lemma join_cons_nonempty (sep x : string) (l : list string) :
  l ≠ [] → Str.join sep (x :: l) = x +:+ sep +:+ Str.join sep l.
Proof. by destruct l. Qed.

Lemma join_prefix_cancel (p a b : list string) :
  a ≠ [] → b ≠ [] →
  Str.join "/" (p ++ a) = Str.join "/" (p ++ b) → Str.join "/" a = Str.join "/" b.
Proof.
  intros Ha Hb. induction p as [| x p IH]; [done |].
  simpl app. rewrite !join_cons_nonempty by (by destruct p).
  intros Heq. do 2 apply append_inv_head in Heq. by apply IH.
Qed.

Lemma str_child_inj (repo_path rel rel' : Path.t) (d : string) :
  Forall (λ s, slash_free s = true) rel → Forall (λ s, slash_free s = true) rel' →
  slash_free d = true →
  Path.str (Path.child (repo_path ++ rel) d) =
    Path.str (Path.child (repo_path ++ rel') d) →
  rel = rel'.
Proof.
  intros Hrel Hrel' Hd. unfold Path.str, Path.child.
  rewrite <- !(assoc_L (++)). intros Heq. apply append_inv_head in Heq.
  apply join_prefix_cancel in Heq; [| by destruct rel | by destruct rel'].
  apply join_slash_inj in Heq.
  - by apply app_inv_tail in Heq.
  - by destruct rel.
  - by destruct rel'.
  - apply Forall_app. split; [exact Hrel | by constructor].
  - apply Forall_app. split; [exact Hrel' | by constructor].
Qed.

Lemma well_named_scanned files subdirs :
  well_named (Scanned files subdirs) = true ↔
  NoDup (fst <$> subdirs) ∧
  Forall (λ entry, slash_free entry.1 = true ∧ well_named entry.2.2 = true) subdirs.
Proof.
  simpl. rewrite andb_true_iff, bool_decide_eq_true.
  apply and_iff_compat_l.
  induction subdirs as [| [dirname [islink sub]] l IH]; simpl.
  - split; [by constructor | done].
  - rewrite !andb_true_iff, IH, Forall_cons. simpl. tauto.
Qed.

Lemma well_named_ctx_path (c : Ctx) (t : Tree) :
  well_named (plug c t) = true → Forall (λ s, slash_free s = true) (ctx_path c).
Proof.
  induction c as [| files before dirname islink c IH after]; simpl plug; simpl ctx_path.
  - by constructor.
  - intros Hw. apply well_named_scanned in Hw as [_ Hall].
    apply Forall_app in Hall as [_ Hall]. apply Forall_cons in Hall as [[Hn Hsub] _].
    constructor; [exact Hn | by apply IH].
Qed.

Lemma reports_pruned_elsewhere root root' d d' :
  reports_pruned root d (skipping_directory_record root' d') →
  d' = d ∧ Path.str (Path.child root' d) = Path.str (Path.child root d).
Proof.
  unfold reports_pruned, skipping_directory_record, info_record; simpl.
  rewrite lookup_insert_eq, lookup_insert_ne, lookup_singleton_eq by done.
  intros (_ & Hn & Hp). injection Hn as ->.
  split; [reflexivity |].
  exact (f_equal (λ o, match o with Some (JStr s) => s | _ => "" end) Hp).
Qed.

(** ** Counting the records of a traversal *)

Lemma writes_n_ret (P : LogRecord → Prop) `{∀ r, Decision (P r)} :
  writes_n P 0 (mret tt).
Proof. intros st. exists st, []. by rewrite app_nil_r. Qed.

Lemma writes_n_seq (P : LogRecord → Prop) `{∀ r, Decision (P r)}
    (a b : nat) (m1 m2 : M unit) :
  writes_n P a m1 → writes_n P b m2 → writes_n P (a + b) (m1 ;; m2).
Proof.
  intros H1 H2 st. unfold mbind, M_bind.
  destruct (H1 st) as (st1 & evs1 & -> & He1 & Hc1).
  destruct (H2 st1) as (st2 & evs2 & -> & He2 & Hc2).
  exists st2, (evs1 ++ evs2).
  split; [reflexivity |]. split; [by rewrite He2, He1, (assoc_L (++)) |].
  rewrite filter_app, length_app. lia.
Qed.

Lemma writes_n_for_each_none {A} (P : LogRecord → Prop) `{∀ r, Decision (P r)}
    (l : list A) (body : A → M unit) :
  Forall (λ x, writes_n P 0 (body x)) l → writes_n P 0 (for_each l body).
Proof.
  induction 1 as [| x l Hx _ IH]; simpl; [apply writes_n_ret |].
  by apply (writes_n_seq P 0 0).
Qed.

Lemma writes_n_for_each_app {A} (P : LogRecord → Prop) `{∀ r, Decision (P r)}
    (a b : nat) (l1 l2 : list A) (body : A → M unit) :
  writes_n P a (for_each l1 body) → writes_n P b (for_each l2 body) →
  writes_n P (a + b) (for_each (l1 ++ l2) body).
Proof.
  intros H1 H2 st. rewrite for_each_app.
  destruct (H1 st) as (st1 & evs1 & -> & He1 & Hc1).
  destruct (H2 st1) as (st2 & evs2 & -> & He2 & Hc2).
  exists st2, (evs1 ++ evs2).
  split; [reflexivity |]. split; [by rewrite He2, He1, (assoc_L (++)) |].
  rewrite filter_app, length_app. lia.
Qed.

Section PrunedOnce.

Variable guess_type : string -> option string.
Variable repo_path : Path.t.

(** The records of one directory: those of its pruned subdirectories, then
    those of its files, then those of the descent. *)
Lemma walk_scanned_writes (P : LogRecord → Prop) `{∀ r, Decision (P r)}
    (rel : Path.t) files subdirs (a b : nat) :
  (∀ r, P r → msg r = "Skipping directory") →
  length (filter P (skipping_directory_record (repo_path ++ rel) <$>
                      elements (skipped_dirs (fst <$> subdirs)))) = a →
  writes_n P b
    (descend None (visit guess_type repo_path) (repo_path ++ rel)
       (filter (λ x, x ∉ SKIP_DIRS) (fst <$> subdirs)) subdirs) →
  writes_n P (a + b)
    (os.walk None (visit guess_type repo_path) (repo_path ++ rel)
       (Scanned files subdirs)).
Proof.
  intros HP Ha Hb st. rewrite walk_scanned, visit_run.
  destruct (for_each_files_events guess_type repo_path rel files
    (emit_all (skipping_directory_record (repo_path ++ rel) <$>
                 elements (skipped_dirs (fst <$> subdirs))) st))
    as (st1 & fevs & -> & He1 & Hf).
  destruct (Hb st1) as (st2 & evs2 & -> & He2 & Hc2).
  exists st2, ((skipping_directory_record (repo_path ++ rel) <$>
                  elements (skipped_dirs (fst <$> subdirs))) ++ fevs ++ evs2).
  split; [reflexivity |]. split.
  { rewrite He2, He1. unfold emit_all. cbn [stderr].
    by rewrite <- !(assoc_L (++)). }
  rewrite !filter_app, !length_app, Ha, Hc2.
  rewrite (filter_none P fevs); [simpl; lia |].
  eapply Forall_impl; [exact Hf |]. intros r Hr HPr. by apply Hr, HP.
Qed.

Lemma reports_pruned_message root d r :
  reports_pruned root d r → msg r = "Skipping directory".
Proof. by intros [Hm _]. Qed.

Lemma no_pruned_record_elsewhere (rel rel' : Path.t) (d : string) (ds : list string) :
  Forall (λ s, slash_free s = true) rel → Forall (λ s, slash_free s = true) rel' →
  slash_free d = true → rel' ≠ rel →
  length (filter (reports_pruned (repo_path ++ rel) d)
            (skipping_directory_record (repo_path ++ rel') <$> ds)) = 0%nat.
Proof.
  intros Hrel Hrel' Hd Hne. rewrite filter_none; [reflexivity |].
  apply Forall_fmap, Forall_forall. intros d' _ Hp. simpl in Hp.
  apply reports_pruned_elsewhere in Hp as [_ Hp].
  apply Hne. by apply (str_child_inj repo_path rel' rel d).
Qed.

(** A subtree that does not lie on the way to the directory [target]
    writes no record about a pruned entry of [target]. *)
Lemma walk_elsewhere (target : Path.t) (d : string) (t : Tree) :
  Forall (λ s, slash_free s = true) target → slash_free d = true →
  well_named t = true →
  ∀ rel,
    Forall (λ s, slash_free s = true) rel → ¬ rel `prefix_of` target →
    writes_n (reports_pruned (repo_path ++ target) d) 0
      (os.walk None (visit guess_type repo_path) (repo_path ++ rel) t).
Proof.
  intros Htarget Hd.
  induction t as [files subdirs IH | e] using Tree_ind; intros Hw rel Hrel Hpre;
    [| apply writes_n_ret].
  apply well_named_scanned in Hw as [_ Hall].
  apply (walk_scanned_writes _ rel files subdirs 0 0).
  - apply reports_pruned_message.
  - apply no_pruned_record_elsewhere; try assumption.
    intros ->. by apply Hpre.
  - apply writes_n_for_each_none.
    apply Forall_forall. intros [dirname [islink sub]] Hin. simpl.
    destruct (bool_decide _ && negb islink)%bool; [| apply writes_n_ret].
    pose proof (proj1 (Forall_forall _ _) IH _ Hin) as Hsub.
    pose proof (proj1 (Forall_forall _ _) Hall _ Hin) as [Hname Hwsub].
    simpl in Hsub, Hname, Hwsub.
    unfold Path.child. rewrite <- (assoc_L (++)).
    apply Hsub; [exact Hwsub | |].
    + apply Forall_app. split; [exact Hrel | by constructor].
    + intros [k Hk]. apply Hpre. exists ([dirname] ++ k).
      by rewrite Hk, <- (assoc_L (++)).
Qed.

(** A directory that the traversal reaches gets one record for each of
    its pruned entries, and only one in the whole walk. *)
Lemma walk_pruned_once (d : string) files before islink sub after (c : Ctx) :
  d ∈ SKIP_DIRS →
  let t := Scanned files (before ++ (d, (islink, sub)) :: after) in
  ∀ rel,
    reached c = true → well_named (plug c t) = true →
    Forall (λ s, slash_free s = true) rel →
    writes_n (reports_pruned (repo_path ++ rel ++ ctx_path c) d) 1
      (os.walk None (visit guess_type repo_path) (repo_path ++ rel) (plug c t)).
Proof.
  intros Hd t.
  induction c as [| files' before' dirname islink' c IH after'];
    intros rel Hreach Hw Hrel.
  - simpl plug in *. simpl ctx_path. rewrite app_nil_r. unfold t in *.
    apply well_named_scanned in Hw as [_ Hall].
    assert (slash_free d = true) as Hsd.
    { apply Forall_app in Hall as [_ Hall]. by apply Forall_cons in Hall as [[Hn _] _]. }
    apply (walk_scanned_writes _ rel _ _ 1 0).
    + apply reports_pruned_message.
    + apply pruned_records_count; [apply NoDup_elements |].
      rewrite elem_of_elements, elem_of_skipped_dirs. split; [| exact Hd].
      rewrite fmap_app, fmap_cons. apply elem_of_app. right. by left.
    + apply writes_n_for_each_none.
      apply Forall_forall. intros [dirname [islink' sub']] Hin. simpl.
      destruct (bool_decide _ && negb islink')%bool; [| apply writes_n_ret].
      pose proof (proj1 (Forall_forall _ _) Hall _ Hin) as [Hname Hwsub].
      simpl in Hname, Hwsub.
      unfold Path.child. rewrite <- (assoc_L (++)).
      apply walk_elsewhere; try assumption.
      * apply Forall_app. split; [exact Hrel | by constructor].
      * intros [k Hk]. apply (f_equal length) in Hk.
        rewrite !length_app in Hk. simpl in Hk. lia.
  - simpl plug in *. simpl ctx_path. simpl in Hreach.
    apply andb_true_iff in Hreach as [Hreach Hrc].
    apply andb_true_iff in Hreach as [Hkeep Hlink].
    apply bool_decide_eq_true_1 in Hkeep. apply negb_true_iff in Hlink. subst islink'.
    pose proof (well_named_ctx_path (Below files' before' dirname false c after') t Hw)
      as Hpath.
    simpl ctx_path in Hpath.
    apply well_named_scanned in Hw as [Hnd Hall].
    assert (slash_free d = true) as Hsd.
    { clear -Hall. apply Forall_app in Hall as [_ Hall].
      apply Forall_cons in Hall as [[_ Hsub] _]. simpl in Hsub.
      clear -Hsub. induction c as [| f b n l c IHc a]; simpl plug in Hsub.
      - unfold t in Hsub. apply well_named_scanned in Hsub as [_ Hall].
        apply Forall_app in Hall as [_ Hall]. by apply Forall_cons in Hall as [[Hn _] _].
      - apply well_named_scanned in Hsub as [_ Hall].
        apply Forall_app in Hall as [_ Hall].
        apply Forall_cons in Hall as [[_ Hsub'] _]. by apply IHc. }
    assert (Forall (λ s, slash_free s = true) (rel ++ dirname :: ctx_path c)) as Htarget.
    { apply Forall_app. by split. }
    apply (walk_scanned_writes _ rel _ _ 0 1).
    + apply reports_pruned_message.
    + apply no_pruned_record_elsewhere; try assumption.
      intros Heq. apply (f_equal length) in Heq.
      rewrite length_app in Heq. simpl in Heq. lia.
    + rewrite fmap_app, fmap_cons in Hnd. simpl in Hnd.
      apply NoDup_app in Hnd as (_ & Hbefore & Hnd).
      apply NoDup_cons in Hnd as [Hafter _].
      apply Forall_app in Hall as [Hallb Hall].
      apply Forall_cons in Hall as [[Hname Hwsub] Halla]. simpl in Hname, Hwsub.
      assert (∀ l : list (string * (bool * Tree)),
                Forall (λ entry, slash_free entry.1 = true ∧
                                 well_named entry.2.2 = true) l →
                dirname ∉ fst <$> l →
                writes_n (reports_pruned (repo_path ++ rel ++ dirname :: ctx_path c) d) 0
                  (for_each l (λ entry,
                     if (bool_decide (entry.1 ∈ filter (λ x, x ∉ SKIP_DIRS)
                           (fst <$> before' ++ (dirname, (false, plug c t)) :: after'))
                         && negb entry.2.1)%bool
                     then os.walk None (visit guess_type repo_path)
                            (Path.child (repo_path ++ rel) entry.1) entry.2.2
                     else mret tt))) as Hsiblings.
      { intros l Hl Hnot. apply writes_n_for_each_none.
        apply Forall_forall. intros [n' [l' s']] Hin. simpl.
        destruct (bool_decide _ && negb l')%bool; [| apply writes_n_ret].
        pose proof (proj1 (Forall_forall _ _) Hl _ Hin) as [Hn' Hw'].
        simpl in Hn', Hw'.
        unfold Path.child. rewrite <- (assoc_L (++)).
        apply walk_elsewhere; try assumption.
        - apply Forall_app. split; [exact Hrel | by constructor].
        - intros [k Hk]. rewrite <- (assoc_L (++)) in Hk.
          apply app_inv_head in Hk. injection Hk as Hk _.
          apply Hnot. rewrite Hk. by apply (list_elem_of_fmap_2 fst _ (n', (l', s'))). }
      unfold descend.
      apply (writes_n_for_each_app _ 0 1); [apply Hsiblings; [exact Hallb |] |].
      { intros Hin. apply (Hbefore dirname Hin). by left. }
      change ((dirname, (false, plug c t)) :: after')
        with ([(dirname, (false, plug c t))] ++ after').
      apply (writes_n_for_each_app _ 1 0); [| by apply Hsiblings].
      simpl for_each. apply (writes_n_seq _ 1 0); [| apply writes_n_ret].
      simpl. rewrite bool_decide_eq_true_2.
      * simpl. unfold Path.child. rewrite <- (assoc_L (++)).
        replace (rel ++ dirname :: ctx_path c) with ((rel ++ [dirname]) ++ ctx_path c)
          by (by rewrite <- (assoc_L (++))).
        apply IH; [exact Hrc | exact Hwsub |].
        apply Forall_app. split; [exact Hrel | by constructor].
      * rewrite list_elem_of_filter. split; [exact Hkeep |].
        rewrite fmap_app, fmap_cons. apply elem_of_app. right. by left.
Qed.

Lemma index_repo_pruned_once (d : string) files before islink sub after (c : Ctx) st :
  d ∈ SKIP_DIRS →
  let t := Scanned files (before ++ (d, (islink, sub)) :: after) in
  reached c = true → well_named (plug c t) = true →
  ∃ doc st' evs,
    index_repo guess_type repo_path (plug c t) st = Ok doc st' ∧
    stderr st' = stderr st ++ evs ∧
    length (filter (reports_pruned (repo_path ++ ctx_path c) d) evs) = 1%nat.
Proof.
  intros Hd t Hreach Hw. subst t.
  destruct (walk_pruned_once d files before islink sub after c Hd [] Hreach Hw
              (Forall_nil_2 _) (start_state repo_path st))
    as (st1 & evs & Hrun & He & Hc).
  rewrite app_nil_r in Hrun. simpl app in Hc.
  eexists _, _, ([start_record repo_path] ++ evs ++ [complete_record _]).
  split; [by rewrite index_repo_walk, Hrun |].
  split.
  { cbn [stderr]. rewrite He. unfold start_state. cbn [stderr].
    by rewrite <- !(assoc_L (++)). }
  rewrite !filter_app, !length_app, Hc.
  rewrite !filter_cons_False; [reflexivity | |]; by intros [Hm _].
Qed.

End PrunedOnce.
(** ** The claims *)

(** C1, as stated, fails: a file whose read fails is visited but counted in
    neither [indexed] nor [skipped]. *)
Lemma C1_indexed_plus_skipped_counterexample :
  ∃ doc st',
    index_repo no_guess ["repo"] unreadable_repo fresh = Ok doc st' ∧
    length (visited [] unreadable_repo) = 1%nat ∧
    (indexed (metrics st') + skipped (metrics st'))%nat = 0%nat ∧
    errors (metrics st') = 1%nat.
Proof. eexists _, _. split; [vm_compute; reflexivity |]. by vm_compute. Qed.

(** C1 (amended): for every run, indexed + skipped + errors equals the
    number of files visited (the files of the directories that are listed
    and not pruned), and every file the loop processes falls in exactly one
    of the classes indexed, skipped by extension, skipped by name, skipped
    as binary, read error. *)
Theorem C1_counters_partition_visited_files
    (guess_type : string → option string) (repo_path : Path.t) (fs : Tree) (st : State) :
  (∃ doc st',
     index_repo guess_type repo_path fs st = Ok doc st' ∧
     (indexed (metrics st') + skipped (metrics st') + errors (metrics st'))%nat
       = length (visited [] fs)) ∧
  (∀ rel f st0, ∃ st1,
     index_file guess_type repo_path (repo_path ++ rel) f st0 = Ok tt st1 ∧
     ∃ c, classified c st0 st1 ∧ ∀ c', classified c' st0 st1 → c' = c).
Proof.
  split.
  - destruct (index_repo_run guess_type repo_path fs st)
      as (st1 & evs & Hrun & _ & Ht & _).
    eexists _, _. split; [exact Hrun |]. exact Ht.
  - intros rel f st0. exists (file_step guess_type repo_path rel f st0).
    split; [apply index_file_run |].
    destruct (file_step_classified guess_type repo_path rel f st0) as [c Hc].
    exists c. split; [exact Hc |].
    intros c' Hc'. exact (classified_unique _ _ _ _ Hc' Hc).
Qed.

(** C2: the skip checks run in the order extension, exact name, content
    type; the first that matches decides, whatever the later ones would
    say; a skip adds one to [skipped] and leaves the other counters alone,
    and writes exactly one record, whose message names the reason; when no
    check matches nothing changes. *)
Theorem C2_skip_checks_in_order
    (guess_type : string → option string) (file_path : Path.t) (st : State) :
  let skip (c : Class) (r : LogRecord) : Result bool :=
    Ok true (mkState (bump c (metrics st)) (file_index st) (stderr st ++ [r])) in
  should_skip_file guess_type file_path st =
    (if bool_decide (Str.lower (Path.suffix file_path) ∈ SKIP_EXTS) then
       skip SkippedByExtension (extension_record file_path)
     else if bool_decide (Path.name file_path ∈ SKIP_FILES) then
       skip SkippedByName (filename_record file_path)
     else if nontext guess_type file_path then
       skip SkippedBinary (binary_record file_path)
     else Ok false st) ∧
  msg (extension_record file_path) = "Skipping by extension" ∧
  msg (filename_record file_path) = "Skipping by filename" ∧
  msg (binary_record file_path) = "Skipping binary file" ∧
  (∀ c, c = SkippedByExtension ∨ c = SkippedByName ∨ c = SkippedBinary →
        bump c (metrics st) =
        mkMetrics (indexed (metrics st)) (S (skipped (metrics st)))
          (errors (metrics st)) (char_count (metrics st))).
Proof.
  split; [apply should_skip_file_run |].
  repeat split. intros c [-> | [-> | ->]]; reflexivity.
Qed.

(** C3: a text longer than the limit is stored as its first [max_chars]
    characters followed by the marker, newline then "...[truncated]": the
    stored text has [max_chars] plus the marker's 15 characters, its first
    [max_chars] characters are those of the text, and one INFO record
    "Truncating large file" is written; a text within the limit is returned
    as it is and nothing is written.  The limit of a run is 5000. *)
Theorem C3_truncation_law
    (file_path : Path.t) (content : string) (max_chars : nat) (st : State) :
  (max_chars < String.length content)%nat →
  let stored := Str.take max_chars content +:+ TRUNCATION_MARKER in
  read_text_file file_path (Text content) (Z.of_nat max_chars) st =
    Ok (Some stored)
       (mkState (metrics st) (file_index st)
          (stderr st ++ [truncating_record file_path])) ∧
  String.length stored = (max_chars + String.length TRUNCATION_MARKER)%nat ∧
  Str.take max_chars stored = Str.take max_chars content ∧
  TRUNCATION_MARKER = NL +:+ "...[truncated]" ∧
  levelno (truncating_record file_path) = logging.INFO ∧
  msg (truncating_record file_path) = "Truncating large file" ∧
  DEFAULT_MAX_CHARS = 5000 ∧
  (∀ short : string,
     (String.length short ≤ max_chars)%nat →
     read_text_file file_path (Text short) (Z.of_nat max_chars) st =
       Ok (Some short) st).
Proof.
  intros Hlong stored. repeat split.
  - rewrite read_text_file_run, len_gtb_of_nat, slice_to_of_nat.
    by destruct (Nat.ltb_spec max_chars (String.length content)); [| lia].
  - unfold stored. rewrite append_length, take_length; [reflexivity | lia].
  - apply take_take_append. lia.
  - intros short Hshort.
    rewrite read_text_file_run, len_gtb_of_nat.
    by destruct (Nat.ltb_spec max_chars (String.length short)); [lia |].
Qed.

Lemma C3_truncation_law_witness :
  (3 < String.length "abcdef")%nat ∧
  read_text_file ["repo"; "f.txt"] (Text "abcdef") 3 fresh =
    Ok (Some ("abc" +:+ TRUNCATION_MARKER))
       (mkState (metrics fresh) (file_index fresh)
          (stderr fresh ++ [truncating_record ["repo"; "f.txt"]])).
Proof.
  split; [simpl; lia |].
  apply (C3_truncation_law ["repo"; "f.txt"] "abcdef" 3 fresh). simpl; lia.
Defined.

(** C4: when the read of a file that passed the skip checks fails, one
    WARNING record "Unreadable file" with the file's path and the error's
    text is written, [errors] goes up by one, the reader returns nothing,
    the file index and the counters [indexed] and [skipped] are as before,
    and the loop goes on with the next file. *)
Theorem C4_read_failure
    (guess_type : string → option string) (repo_path rel : Path.t)
    (f : FileEntry) (e : string) (rest : list FileEntry) (st : State) :
  let file_path := Path.child (repo_path ++ rel) (fname f) in
  fdata f = Fails e →
  should_skip_file guess_type file_path st = Ok false st →
  let st' :=
    mkState
      (mkMetrics (indexed (metrics st)) (skipped (metrics st))
         (S (errors (metrics st))) (char_count (metrics st)))
      (file_index st)
      (stderr st ++ [unreadable_record file_path e]) in
  read_text_file file_path (fdata f) DEFAULT_MAX_CHARS st = Ok None st' ∧
  index_file guess_type repo_path (repo_path ++ rel) f st = Ok tt st' ∧
  for_each (f :: rest) (index_file guess_type repo_path (repo_path ++ rel)) st =
    for_each rest (index_file guess_type repo_path (repo_path ++ rel)) st' ∧
  levelno (unreadable_record file_path e) = logging.WARNING ∧
  msg (unreadable_record file_path e) = "Unreadable file" ∧
  extra (unreadable_record file_path e) =
    Some (<[ "file_path" := JStr (Path.str file_path) ]> {[ "error" := JStr e ]}).
Proof.
  intros file_path Hdata Hskip st'.
  assert (index_file guess_type repo_path (repo_path ++ rel) f st = Ok tt st') as Hfile.
  { unfold index_file, mbind, M_bind. fold file_path. rewrite Hskip.
    rewrite read_text_file_run, Hdata. reflexivity. }
  repeat split.
  - rewrite read_text_file_run, Hdata. reflexivity.
  - exact Hfile.
  - simpl. unfold mbind, M_bind. by rewrite Hfile.
Qed.

Lemma C4_read_failure_witness :
  should_skip_file no_guess ["repo"; "notes.txt"] fresh = Ok false fresh ∧
  index_file no_guess ["repo"] ["repo"] (mkFile "notes.txt" (Fails "Permission denied")) fresh =
    Ok tt
      (mkState (mkMetrics 0 0 1 None) []
         [unreadable_record ["repo"; "notes.txt"] "Permission denied"]).
Proof.
  split; [vm_compute; reflexivity |].
  apply (C4_read_failure no_guess ["repo"] []
           (mkFile "notes.txt" (Fails "Permission denied")) "Permission denied" [] fresh).
  - reflexivity.
  - vm_compute; reflexivity.
Defined.

(** C5, as stated, fails: the listing of [locked] raises, and the run
    still returns a Document, the one of the rest of the tree. *)
Lemma C5_enumeration_failure_counterexample :
  ∃ st',
    index_repo no_guess ["repo"] locked_repo fresh =
      Ok ("### a.txt" +:+ NL +:+ "hello") st' ∧
    metrics st' = mkMetrics 1 0 0 (Some 15%nat).
Proof. eexists. split; vm_compute; reflexivity. Qed.

(** C5 (amended): a failure to list a directory never ends the run.  The
    traversal passes over that directory without a record and without
    touching a counter, every run returns a Document, and the run is the
    one that would take place if the directory were empty. *)
Theorem C5_enumeration_failure_is_passed_over
    (guess_type : string → option string) (repo_path : Path.t) :
  (∀ fs st, ∃ doc st', index_repo guess_type repo_path fs st = Ok doc st') ∧
  (∀ top e st,
     os.walk None (visit guess_type repo_path) top (ScanFailed e) st = Ok tt st) ∧
  (∀ c e st,
     index_repo guess_type repo_path (plug c (ScanFailed e)) st =
     index_repo guess_type repo_path (plug c (Scanned [] [])) st).
Proof.
  split; [| split].
  - intros fs st.
    destruct (index_repo_run guess_type repo_path fs st) as (st1 & evs & Hrun & _).
    eexists _, _. exact Hrun.
  - reflexivity.
  - intros c e st. apply index_repo_plug. intros top st0. apply walk_scan_failed.
Qed.

(** C6: a directory whose name is in the prune set is dropped from the
    list before the descent and gets exactly one "Skipping directory"
    record in the visit of its parent; whatever lies beneath it has no
    effect on the run: Document, counters and records are the same for any
    content of the pruned directory.  In a run over a tree as a file
    system holds it (sibling directories with distinct names, no slash in
    a name), every such directory that the traversal comes to (no
    directory on the way to it is pruned or a link) has exactly one
    "Skipping directory" record, with its name and path, among all the
    records of the run. *)
Theorem C6_pruned_directories
    (guess_type : string → option string) (repo_path : Path.t) (d : string) :
  d ∈ SKIP_DIRS →
  (∀ c files before islink sub sub' after st,
     index_repo guess_type repo_path
       (plug c (Scanned files (before ++ (d, (islink, sub)) :: after))) st =
     index_repo guess_type repo_path
       (plug c (Scanned files (before ++ (d, (islink, sub')) :: after))) st) ∧
  (∀ rel dirs files st,
     d ∈ dirs →
     ∃ st' evs,
       visit guess_type repo_path (repo_path ++ rel) dirs files st =
         Ok (filter (λ x, x ∉ SKIP_DIRS) dirs) st' ∧
       (d ∉ filter (λ x, x ∉ SKIP_DIRS) dirs) ∧
       stderr st' = stderr st ++ evs ∧
       length (filter (reports_pruned (repo_path ++ rel) d) evs) = 1%nat) ∧
  (∀ c files before islink sub after st,
     reached c = true →
     well_named (plug c (Scanned files (before ++ (d, (islink, sub)) :: after))) = true →
     ∃ doc st' evs,
       index_repo guess_type repo_path
         (plug c (Scanned files (before ++ (d, (islink, sub)) :: after))) st =
         Ok doc st' ∧
       stderr st' = stderr st ++ evs ∧
       length (filter (reports_pruned (repo_path ++ ctx_path c) d) evs) = 1%nat).
Proof.
  intros Hd. split; [| split].
  - intros c files before islink sub sub' after st.
    apply index_repo_plug. intros top st0. by apply walk_pruned.
  - intros rel dirs files st Hin. rewrite visit_run.
    destruct (for_each_files_events guess_type repo_path rel files
      (emit_all (skipping_directory_record (repo_path ++ rel) <$>
                   elements (skipped_dirs dirs)) st))
      as (st' & fevs & -> & He & Hf).
    eexists st', _. split; [reflexivity |]. split.
    { rewrite list_elem_of_filter. tauto. }
    split.
    { rewrite He. simpl. by rewrite <- (assoc_L (++)). }
    rewrite filter_app, length_app, pruned_records_count.
    + rewrite (filter_none _ fevs); [reflexivity |].
      eapply Forall_impl; [exact Hf |]. intros r Hr (Hm & _). by apply Hr.
    + apply NoDup_elements.
    + rewrite elem_of_elements, elem_of_skipped_dirs. by split.
  - intros c files before islink sub after st Hreach Hw.
    by apply index_repo_pruned_once.
Qed.

Lemma C6_pruned_directories_witness :
  "node_modules" ∈ SKIP_DIRS ∧
  index_repo no_guess ["repo"]
    (Scanned [mkFile "a.txt" (Text "hello")]
       [("node_modules", (false, Scanned [mkFile "c.txt" (Text "ignored")] []))]) fresh =
  index_repo no_guess ["repo"]
    (Scanned [mkFile "a.txt" (Text "hello")]
       [("node_modules", (false, Scanned [] []))]) fresh ∧
  ∃ doc st' evs,
    index_repo no_guess ["repo"] nested_repo fresh = Ok doc st' ∧
    stderr st' = stderr fresh ++ evs ∧
    length (filter (reports_pruned ["repo"; "web"] "node_modules") evs) = 1%nat.
Proof.
  assert ("node_modules" ∈ SKIP_DIRS) as Hd.
  { apply (bool_decide_unpack _). vm_compute. reflexivity. }
  split; [exact Hd |]. split.
  - apply (proj1 (C6_pruned_directories no_guess ["repo"] "node_modules" Hd)
             Here [mkFile "a.txt" (Text "hello")] [] false
             (Scanned [mkFile "c.txt" (Text "ignored")] []) (Scanned [] []) [] fresh).
  - apply (proj2 (proj2 (C6_pruned_directories no_guess ["repo"] "node_modules" Hd))
             (Below [mkFile "README.md" (Text "hi")] [("docs", (false, Scanned [] []))]
                "web" false Here [])
             [mkFile "app.js" (Text "let x")] [] false
             (Scanned [mkFile "c.txt" (Text "ignored")] []) [] fresh);
      vm_compute; reflexivity.
Defined.

(** C7: the file index that a run builds holds, in traversal order, one
    section per visited file that no skip rule matches and whose read
    succeeds: "### ", the path relative to the root, a newline, the content
    (cut and marked when over the limit).  The Document is the sections
    joined with one newline between two neighbours, none before the first
    or after the last, and [char_count] is the Document's length. *)
Theorem C7_document_is_join_of_sections
    (guess_type : string → option string) (repo_path : Path.t) (fs : Tree) (st : State) :
  ∃ doc st',
    index_repo guess_type repo_path fs st = Ok doc st' ∧
    file_index st' = omap (section_of guess_type repo_path) (visited [] fs) ∧
    doc = Str.join NL (file_index st') ∧
    String.length doc =
      (sum_list (String.length <$> file_index st') + (length (file_index st') - 1))%nat ∧
    char_count (metrics st') = Some (String.length doc).
Proof.
  destruct (index_repo_run guess_type repo_path fs st)
    as (st1 & evs & Hrun & Hi & _).
  eexists _, _. split; [exact Hrun |]. simpl.
  repeat split; [exact Hi |].
  rewrite join_length. simpl. lia.
Qed.

(** C8: the content-type check reports a file as binary exactly when a
    media type is guessed for it and that type does not start with "text";
    with no guess the file is not reported, and nothing is written. *)
Theorem C8_binary_iff_guessed_and_not_text
    (guess_type : string → option string) (file_path : Path.t) (st : State) :
  ∃ b st',
    is_binary_file guess_type file_path st = Ok b st' ∧
    (b = true ↔
       ∃ m, guess_type (Path.str file_path) = Some m ∧
            Str.startswith m "text" = false) ∧
    (guess_type (Path.str file_path) = None → b = false ∧ st' = st).
Proof.
  rewrite is_binary_file_run. unfold nontext.
  destruct (guess_type (Path.str file_path)) as [m |] eqn:Hg.
  - destruct (Str.startswith m "text") eqn:Ht; simpl.
    + eexists _, _. split; [reflexivity |]. split; [| discriminate].
      split; [discriminate |]. intros (m' & Hm' & Hf). congruence.
    + eexists _, _. split; [reflexivity |]. split; [| discriminate].
      split; [| reflexivity]. intros _. by exists m.
  - eexists _, _. split; [reflexivity |]. split; [| done].
    split; [discriminate |]. intros (m' & Hm' & _). discriminate.
Qed.

(** C9: every record that a run writes is formatted with the run's
    [TRACE_ID], the one value of the module, and with the severity code of
    its textual level under the mapping DEBUG 5, INFO 9, WARNING 13,
    ERROR 17, CRITICAL 21, anything else 1; the formatter's code, computed
    from the numeric level, is that code for every level; and the keyword
    arguments of a record are merged into the top level of the formatted
    record, a caller's value replacing the base field of the same name. *)
Theorem C9_formatted_records
    (TRACE_ID : string) (guess_type : string → option string)
    (repo_path : Path.t) (fs : Tree) (st : State) :
  (∃ doc st' evs,
     index_repo guess_type repo_path fs st = Ok doc st' ∧
     stderr st' = stderr st ++ evs ∧
     ∀ r utcnow, r ∈ evs →
       format TRACE_ID utcnow r !! "trace_id" = Some (JStr TRACE_ID) ∧
       format TRACE_ID utcnow r !! "severity_text" =
         Some (JStr (logging.getLevelName (levelno r))) ∧
       format TRACE_ID utcnow r !! "severity_number" =
         Some (JInt (severity_code (logging.getLevelName (levelno r))))) ∧
  (∀ level, map_severity level = severity_code (logging.getLevelName level)) ∧
  (∀ r kwargs utcnow k,
     extra r = Some kwargs →
     format TRACE_ID utcnow r !! k =
       match kwargs !! k with
       | Some v => Some v
       | None =>
           format TRACE_ID utcnow
             (mkLogRecord (levelno r) (name r) (funcName r) (msg r) None) !! k
       end).
Proof.
  split; [| split].
  - destruct (index_repo_run guess_type repo_path fs st)
      as (st1 & evs & Hrun & _ & _ & Hm).
    eexists _, _, _. split; [exact Hrun |]. split; [reflexivity |].
    intros r utcnow Hr. apply format_module_record.
    apply elem_of_cons in Hr as [-> | Hr]; [apply start_record_module |].
    apply elem_of_app in Hr as [Hr | Hr].
    + by apply (proj1 (Forall_forall _ _) Hm).
    + apply list_elem_of_singleton in Hr as ->. apply complete_record_module.
  - apply severity_code_level.
  - intros r kwargs utcnow k He.
    destruct (kwargs !! k) as [v |] eqn:Hk.
    + by apply (format_extra_field _ _ r kwargs).
    + by apply (format_base_field _ _ r kwargs).
Qed.

(** C10: for a file whose name is a dot followed by characters with no
    other dot, the extension is empty and the extension rule does not
    match; the file is skipped only when its name is in the exact-name set
    or the content-type rule finds a type that is not text. *)
Theorem C10_dotfile_has_no_extension
    (guess_type : string → option string) (parent : Path.t) (rest : string)
    (st : State) :
  (∀ i, String.get i rest ≠ Some "."%char) →
  let file_path := Path.child parent (String "."%char rest) in
  Path.suffix file_path = "" ∧
  bool_decide (Str.lower (Path.suffix file_path) ∈ SKIP_EXTS) = false ∧
  (∀ st',
     should_skip_file guess_type file_path st = Ok true st' →
     String "."%char rest ∈ SKIP_FILES ∨
     ∃ m, guess_type (Path.str file_path) = Some m ∧
          Str.startswith m "text" = false).
Proof.
  intros Hrest file_path. subst file_path.
  set (file_path := Path.child parent (String "."%char rest)).
  assert (Path.name file_path = String "."%char rest) as Hname by apply name_child.
  assert (Path.suffix file_path = "") as Hsuffix.
  { unfold Path.suffix. rewrite Hname. simpl.
    by rewrite (rfind_absent _ _ Hrest). }
  split; [exact Hsuffix |].
  assert (bool_decide (Str.lower (Path.suffix file_path) ∈ SKIP_EXTS) = false) as Hext
    by (rewrite Hsuffix; vm_compute; reflexivity).
  split; [exact Hext |].
  intros st'. rewrite should_skip_file_run, Hext, Hname.
  destruct (bool_decide_reflect (String "."%char rest ∈ SKIP_FILES)) as [Hin | _];
    [by left |].
  unfold nontext.
  destruct (guess_type (Path.str file_path)) as [m |]; [| discriminate].
  destruct (Str.startswith m "text") eqn:Htext; simpl; [discriminate |].
  intros _. right. by exists m.
Qed.

Lemma C10_dotfile_has_no_extension_witness :
  (∀ i, String.get i "png" ≠ Some "."%char) ∧
  Path.suffix ["repo"; ".png"] = "" ∧
  bool_decide (Str.lower (Path.suffix ["repo"; ".png"]) ∈ SKIP_EXTS) = false.
Proof.
  assert (∀ i, String.get i "png" ≠ Some "."%char) as Hrest.
  { intros i. do 3 (destruct i as [| i]; [simpl; discriminate |]). simpl; discriminate. }
  split; [exact Hrest |].
  destruct (C10_dotfile_has_no_extension no_guess ["repo"] "png" fresh Hrest)
    as (Hsuffix & Hext & _).
  split; [exact Hsuffix | exact Hext].
Defined.

(** ** Further properties of the code *)

Lemma count_app {A} (p : A → bool) (l1 l2 : list A) :
  count p (l1 ++ l2) = (count p l1 + count p l2)%nat.
Proof. induction l1 as [| x l1 IH]; simpl; [reflexivity | rewrite IH; lia]. Qed.

Lemma count_none {A} (p : A → bool) (l : list A) :
  Forall (λ x, p x = false) l → count p l = 0%nat.
Proof. induction 1 as [| x l Hx _ IH]; simpl; [reflexivity | by rewrite Hx, IH]. Qed.

(** *** A principle for the traversal *)

Section Traversal.

Variable guess_type : string -> option string.
Variable repo_path : Path.t.
Variable R : list (Path.t * FileEntry) → State → State → Prop.

Hypothesis R_refl : ∀ st, R [] st st.
Hypothesis R_trans : ∀ vs1 vs2 st st1 st2,
  R vs1 st st1 → R vs2 st1 st2 → R (vs1 ++ vs2) st st2.
Hypothesis R_file : ∀ rel f st,
  R [(rel, f)] st (file_step guess_type repo_path rel f st).
Hypothesis R_pruned : ∀ root ds st,
  R [] st (emit_all (skipping_directory_record root <$> ds) st).

Lemma for_each_files_rel rel files st :
  ∃ st',
    for_each files (index_file guess_type repo_path (repo_path ++ rel)) st = Ok tt st' ∧
    R ((λ f, (rel, f)) <$> files) st st'.
Proof.
  revert st. induction files as [| f files IH]; intros st.
  - exists st. split; [reflexivity | apply R_refl].
  - rewrite for_each_files_step.
    destruct (IH (file_step guess_type repo_path rel f st)) as (st' & Hrun & Hd).
    exists st'. split; [exact Hrun |].
    change ((λ f, (rel, f)) <$> f :: files)
      with ([(rel, f)] ++ ((λ f, (rel, f)) <$> files)).
    eapply R_trans; [apply R_file | exact Hd].
Qed.

Lemma visit_rel rel dirs files st :
  ∃ st',
    visit guess_type repo_path (repo_path ++ rel) dirs files st =
      Ok (filter (λ d, d ∉ SKIP_DIRS) dirs) st' ∧
    R ((λ f, (rel, f)) <$> files) st st'.
Proof.
  rewrite visit_run.
  destruct (for_each_files_rel rel files
    (emit_all (skipping_directory_record (repo_path ++ rel) <$>
                 elements (skipped_dirs dirs)) st)) as (st' & -> & Hd).
  exists st'. split; [reflexivity |].
  change ((λ f, (rel, f)) <$> files) with ([] ++ ((λ f, (rel, f)) <$> files)).
  eapply R_trans; [apply R_pruned | exact Hd].
Qed.

Lemma descend_rel rel dirs subdirs :
  (∀ entry, entry ∈ subdirs → entry.1 ∈ dirs ↔ entry.1 ∉ SKIP_DIRS) →
  Forall (λ entry, walk_rel_at guess_type repo_path R entry.2.2) subdirs →
  ∀ st, ∃ st',
    descend None (visit guess_type repo_path) (repo_path ++ rel) dirs subdirs st =
      Ok tt st' ∧
    R (visited_below rel subdirs) st st'.
Proof.
  intros Hdirs Hsub. induction Hsub as [| [dirname [islink sub]] l Hx Hl IH]; intros st.
  - exists st. split; [reflexivity | apply R_refl].
  - unfold descend, visited_below in *. simpl in *. unfold mbind, M_bind.
    assert (bool_decide (dirname ∈ dirs) = bool_decide (dirname ∉ SKIP_DIRS)) as ->.
    { apply bool_decide_ext, (Hdirs (dirname, (islink, sub))). by left. }
    assert (∀ entry, entry ∈ l → entry.1 ∈ dirs ↔ entry.1 ∉ SKIP_DIRS) as Hl'.
    { intros entry He. apply Hdirs. by right. }
    destruct (bool_decide (dirname ∉ SKIP_DIRS) && negb islink)%bool.
    + destruct (Hx (Path.child rel dirname) st) as (st1 & Hrun & Hd1).
      unfold Path.child in *. rewrite <- (assoc_L (++)), Hrun.
      destruct (IH Hl' st1) as (st2 & Hrun2 & Hd2).
      exists st2. split; [exact Hrun2 |].
      eapply R_trans; eassumption.
    + simpl. apply (IH Hl').
Qed.

Lemma walk_rel t : walk_rel_at guess_type repo_path R t.
Proof.
  induction t as [files subdirs IH | e] using Tree_ind; intros rel st.
  - rewrite walk_scanned, visited_scanned.
    destruct (visit_rel rel (fst <$> subdirs) files st) as (st1 & -> & Hd1).
    destruct (descend_rel rel
                (filter (λ d, d ∉ SKIP_DIRS) (fst <$> subdirs)) subdirs) with (st := st1)
      as (st2 & Hrun & Hd2); [| exact IH |].
    + intros entry He. rewrite list_elem_of_filter.
      split; [tauto |]. intros Hn. split; [exact Hn |].
      by apply list_elem_of_fmap_2.
    + exists st2. split; [exact Hrun |].
      eapply R_trans; eassumption.
  - exists st. split; [reflexivity | apply R_refl].
Qed.

End Traversal.

Lemma index_repo_unfold guess_type repo_path fs st :
  index_repo guess_type repo_path fs st =
  match os.walk None (visit guess_type repo_path) repo_path fs (start_state repo_path st) with
  | Ok _ st1 => finish st1
  | Raise e st1 => Raise e st1
  end.
Proof.
  apply index_repo_walk.
Qed.

(** *** Counters, sections and records of a traversal *)

#[local] Arguments DEFAULT_MAX_CHARS : simpl never.

Section Counts.

Variable guess_type : string -> option string.
Variable repo_path : Path.t.

Lemma run_counts_refl st : run_counts guess_type repo_path [] st st.
Proof.
  unfold run_counts; simpl. repeat split; try lia.
  - exists []. by rewrite app_nil_r.
  - exists []. by rewrite app_nil_r.
Qed.

Lemma run_counts_trans vs1 vs2 st st1 st2 :
  run_counts guess_type repo_path vs1 st st1 →
  run_counts guess_type repo_path vs2 st1 st2 →
  run_counts guess_type repo_path (vs1 ++ vs2) st st2.
Proof.
  intros (Hi1 & Hs1 & He1 & (secs1 & Hx1 & Hl1 & Hh1) & (evs1 & Hv1 & Hw1 & Hn1 & Hr1))
         (Hi2 & Hs2 & He2 & (secs2 & Hx2 & Hl2 & Hh2) & (evs2 & Hv2 & Hw2 & Hn2 & Hr2)).
  unfold run_counts. rewrite !count_app. repeat split; try lia.
  - exists (secs1 ++ secs2). rewrite Hx2, Hx1, (assoc_L (++)), length_app.
    repeat split; [lia | by apply Forall_app].
  - exists (evs1 ++ evs2). rewrite Hv2, Hv1, (assoc_L (++)), !count_app.
    repeat split; [by apply Forall_app | lia | lia].
Qed.

Lemma startswith_append (p s : string) : Str.startswith (p +:+ s) p = true.
Proof.
  induction p as [| a p IH]; simpl; [by destruct s |].
  by rewrite Ascii.eqb_refl.
Qed.

Lemma info_record_wrapper message kwargs : wrapper_record (info_record message kwargs).
Proof. split; [by left | reflexivity]. Qed.

Lemma warning_record_wrapper message kwargs :
  wrapper_record (warning_record message kwargs).
Proof. split; [by right | reflexivity]. Qed.

Lemma run_counts_pruned root ds st :
  run_counts guess_type repo_path [] st
    (emit_all (skipping_directory_record root <$> ds) st).
Proof.
  unfold run_counts; simpl. repeat split; try lia.
  - exists []. by rewrite app_nil_r.
  - exists (skipping_directory_record root <$> ds).
    repeat split.
    + apply Forall_fmap, Forall_forall. intros d _. apply info_record_wrapper.
    + apply count_none, Forall_fmap, Forall_forall. by intros d _.
    + apply count_none, Forall_fmap, Forall_forall. by intros d _.
Qed.

Lemma run_counts_file rel f st :
  run_counts guess_type repo_path [(rel, f)] st
    (file_step guess_type repo_path rel f st).
Proof.
  unfold run_counts, file_step, is_indexed, is_unreadable, is_skipped, skip_rule.
  cbn [fst snd count].
  destruct (bool_decide (Str.lower _ ∈ SKIP_EXTS)); simpl.
  { repeat split; try lia.
    - exists []. by rewrite app_nil_r.
    - eexists [_]. repeat split. constructor; [apply info_record_wrapper | constructor]. }
  destruct (bool_decide (Path.name _ ∈ SKIP_FILES)); simpl.
  { repeat split; try lia.
    - exists []. by rewrite app_nil_r.
    - eexists [_]. repeat split. constructor; [apply info_record_wrapper | constructor]. }
  destruct (nontext _ _); simpl.
  { repeat split; try lia.
    - exists []. by rewrite app_nil_r.
    - eexists [_]. repeat split. constructor; [apply info_record_wrapper | constructor]. }
  destruct (fdata f) as [content | e]; simpl.
  - split; [lia |]. split; [lia |]. split; [lia |]. split.
    + eexists [_]. split; [reflexivity |]. split; [reflexivity |].
      constructor; [apply startswith_append | constructor].
    + destruct (Str.len content >? DEFAULT_MAX_CHARS); simpl.
      * eexists [_; _]. split; [by rewrite <- (assoc_L (++)) |].
        split; [| split; reflexivity].
        constructor; [apply info_record_wrapper |].
        constructor; [apply info_record_wrapper | constructor].
      * eexists [_]. split; [reflexivity |]. split; [| split; reflexivity].
        constructor; [apply info_record_wrapper | constructor].
  - repeat split; try lia.
    + exists []. by rewrite app_nil_r.
    + eexists [_]. repeat split. constructor; [apply warning_record_wrapper | constructor].
Qed.

Lemma index_repo_counts fs st :
  ∃ st1,
    index_repo guess_type repo_path fs st = finish st1 ∧
    run_counts guess_type repo_path (visited [] fs) (start_state repo_path st) st1.
Proof.
  destruct (walk_rel guess_type repo_path (run_counts guess_type repo_path)
              run_counts_refl run_counts_trans run_counts_file run_counts_pruned
              fs [] (start_state repo_path st)) as (st1 & Hrun & Hc).
  rewrite app_nil_r in Hrun.
  exists st1. split; [| exact Hc].
  by rewrite index_repo_unfold, Hrun.
Qed.

End Counts.

Lemma join_empty (sep : string) (l : list string) :
  Forall (λ s, s ≠ "") l → Str.join sep l = "" → l = [].
Proof.
  intros Hne Hj. destruct l as [| x l]; [reflexivity |].
  apply Forall_cons in Hne as [Hx _]. exfalso. apply Hx.
  destruct l as [| y l]; [exact Hj |].
  rewrite join_cons in Hj. by destruct x.
Qed.

Lemma header_nonempty (s : string) : Str.startswith s "### " = true → s ≠ "".
Proof. by destruct s. Qed.

(** X1: the records of a run are bracketed.  The first record written is
    the start record, with [event_name] "repo_scan_start" and the root's
    path; the last is the summary, with [event_name] "repo_scan_end", the
    three counters as they are returned and, as [char_count], the length of
    the returned Document. *)
Theorem X1_run_records_are_bracketed
    (guess_type : string → option string) (repo_path : Path.t) (fs : Tree) (st : State) :
  ∃ doc st' evs,
    index_repo guess_type repo_path fs st = Ok doc st' ∧
    stderr st' =
      stderr st ++ start_record repo_path :: evs ++ [complete_record (metrics st')] ∧
    msg (start_record repo_path) = "Indexing repository" ∧
    field (start_record repo_path) "event_name" = Some (JStr "repo_scan_start") ∧
    field (start_record repo_path) "file_path" = Some (JStr (Path.str repo_path)) ∧
    msg (complete_record (metrics st')) = "Indexing complete" ∧
    field (complete_record (metrics st')) "event_name" = Some (JStr "repo_scan_end") ∧
    field (complete_record (metrics st')) "file_indexed" =
      Some (JInt (Z.of_nat (indexed (metrics st')))) ∧
    field (complete_record (metrics st')) "file_skipped" =
      Some (JInt (Z.of_nat (skipped (metrics st')))) ∧
    field (complete_record (metrics st')) "file_errors" =
      Some (JInt (Z.of_nat (errors (metrics st')))) ∧
    field (complete_record (metrics st')) "char_count" =
      Some (JInt (Z.of_nat (String.length doc))).
Proof.
  destruct (index_repo_run guess_type repo_path fs st)
    as (st1 & evs & Hrun & _).
  eexists _, _, evs. split; [exact Hrun |]. simpl.
  split; [reflexivity |].
  unfold field, start_record, complete_record, info_record; simpl.
  repeat split; by simplify_map_eq.
Qed.

(** X3: each counter of a run by itself.  [indexed] is the number of
    visited files that no skip rule matches and whose read succeeds,
    [skipped] the number that a skip rule matches, [errors] the number that
    no skip rule matches and whose read fails. *)
Theorem X3_each_counter
    (guess_type : string → option string) (repo_path : Path.t) (fs : Tree) (st : State) :
  ∃ doc st',
    index_repo guess_type repo_path fs st = Ok doc st' ∧
    indexed (metrics st') = count (is_indexed guess_type repo_path) (visited [] fs) ∧
    skipped (metrics st') = count (is_skipped guess_type repo_path) (visited [] fs) ∧
    errors (metrics st') = count (is_unreadable guess_type repo_path) (visited [] fs).
Proof.
  destruct (index_repo_counts guess_type repo_path fs st)
    as (st1 & Hrun & Hi & Hs & He & _).
  eexists _, _. split; [exact Hrun |]. simpl in *. by rewrite Hi, Hs, He.
Qed.

(** X4: every record that a run writes goes through [log_info] or
    [log_warning] on the logger "repo_indexer", so none has the level
    ERROR and the function recorded for it is the wrapper; the number of
    WARNING records is the final [errors] and the number of "Indexed file"
    records is the final [indexed]. *)
Theorem X4_records_of_a_run
    (guess_type : string → option string) (repo_path : Path.t) (fs : Tree) (st : State) :
  ∃ doc st' evs,
    index_repo guess_type repo_path fs st = Ok doc st' ∧
    stderr st' = stderr st ++ evs ∧
    Forall wrapper_record evs ∧
    count is_warning evs = errors (metrics st') ∧
    count is_indexed_record evs = indexed (metrics st').
Proof.
  destruct (index_repo_counts guess_type repo_path fs st)
    as (st1 & Hrun & Hi & _ & He & _ & (evs & Hv & Hw & Hn & Hr)).
  eexists _, _, ([start_record repo_path] ++ evs ++ [complete_record _]).
  split; [exact Hrun |]. simpl in *.
  split; [by rewrite Hv, <- !(assoc_L (++)) |].
  split.
  { constructor; [apply info_record_wrapper |].
    apply Forall_app. split; [exact Hw |].
    constructor; [apply info_record_wrapper | constructor]. }
  rewrite !count_app. simpl. rewrite Hn, Hr, Hi, He. lia.
Qed.

(** X5: the file index of a run holds as many sections as [indexed]
    counts, each starting with the header mark "### "; so the Document is
    empty exactly when no file was indexed. *)
Theorem X5_sections_and_indexed
    (guess_type : string → option string) (repo_path : Path.t) (fs : Tree) (st : State) :
  ∃ doc st',
    index_repo guess_type repo_path fs st = Ok doc st' ∧
    length (file_index st') = indexed (metrics st') ∧
    Forall (λ s, Str.startswith s "### " = true) (file_index st') ∧
    (doc = "" ↔ indexed (metrics st') = 0%nat).
Proof.
  destruct (index_repo_counts guess_type repo_path fs st)
    as (st1 & Hrun & Hi & _ & _ & (secs & Hx & Hl & Hh) & _).
  eexists _, _. split; [exact Hrun |]. simpl in *.
  rewrite Hx, Hi, Hl. repeat split; [exact Hh | |].
  - intros Hdoc. apply join_empty in Hdoc; [by rewrite <- Hl, Hdoc |].
    eapply Forall_impl; [exact Hh |]. apply header_nonempty.
  - intros Hz. rewrite <- Hl in Hz. by apply length_zero_iff_nil in Hz as ->.
Qed.

(** X12: when the traversal visits no file (the root cannot be listed or
    is empty, or it holds nothing but pruned, linked, empty or unlistable
    directories) the run still succeeds: the Document is empty, the three
    counters are 0, [char_count] is 0, and no warning is written. *)
Theorem X12_nothing_visited
    (guess_type : string → option string) (repo_path : Path.t) (fs : Tree) (st : State) :
  visited [] fs = [] →
  ∃ st' evs,
    index_repo guess_type repo_path fs st = Ok "" st' ∧
    metrics st' = mkMetrics 0 0 0 (Some 0%nat) ∧
    file_index st' = [] ∧
    stderr st' = stderr st ++ evs ∧
    count is_warning evs = 0%nat.
Proof.
  intros Hv.
  destruct (index_repo_counts guess_type repo_path fs st)
    as (st1 & Hrun & Hi & Hs & He & (secs & Hx & Hl & _) & (evs & Hev & _ & Hn & _)).
  rewrite Hv in *. simpl in *.
  apply length_zero_iff_nil in Hl as ->. simpl in Hx.
  unfold finish in Hrun. rewrite Hx, Hi, Hs, He in Hrun. simpl in Hrun.
  eexists _, ([start_record repo_path] ++ evs ++ [complete_record _]).
  split; [exact Hrun |]. simpl.
  repeat split.
  - by rewrite Hev, <- !(assoc_L (++)).
  - rewrite count_app, Hn. reflexivity.
Qed.

Lemma X12_nothing_visited_witness :
  visited [] hollow_repo = [] ∧
  ∃ st' evs,
    index_repo no_guess ["repo"] hollow_repo fresh = Ok "" st' ∧
    metrics st' = mkMetrics 0 0 0 (Some 0%nat) ∧
    file_index st' = [] ∧
    stderr st' = stderr fresh ++ evs ∧
    count is_warning evs = 0%nat.
Proof.
  split; [vm_compute; reflexivity |].
  apply (X12_nothing_visited no_guess ["repo"] hollow_repo fresh).
  vm_compute; reflexivity.
Defined.

(** *** Computations that only append to the stream *)

Lemma log_frame_ret {A} (a : A) : log_frame (mret a : M A).
Proof. by intros pre st. Qed.

Lemma log_frame_bind {A B} (m : M A) (f : A → M B) :
  log_frame m → (∀ a, log_frame (f a)) → log_frame (m ≫= f).
Proof.
  intros Hm Hf pre st. unfold mbind, M_bind. rewrite Hm.
  destruct (m st) as [a st' | e st']; [apply Hf | reflexivity].
Qed.

Lemma log_frame_raise {A} (e : string) : log_frame (raise e : M A).
Proof. by intros pre st. Qed.

Lemma log_frame_try_except {A} (body : M A) (handler : string → M A) :
  log_frame body → (∀ e, log_frame (handler e)) → log_frame (try_except body handler).
Proof.
  intros Hb Hh pre st. unfold try_except. rewrite Hb.
  destruct (body st) as [a st' | e st']; [reflexivity | apply Hh].
Qed.

Lemma log_frame_handle (r : LogRecord) : log_frame (handle r).
Proof.
  intros pre st. unfold handle, prepend; simpl. by rewrite (assoc_L (++)).
Qed.

Lemma log_frame_log_info message kwargs : log_frame (log_info message kwargs).
Proof.
  unfold log_info.
  destruct (kwargs !! "message"); [apply log_frame_raise | apply log_frame_handle].
Qed.

Lemma log_frame_log_warning message kwargs : log_frame (log_warning message kwargs).
Proof.
  unfold log_warning.
  destruct (kwargs !! "message"); [apply log_frame_raise | apply log_frame_handle].
Qed.

Lemma log_frame_get_metrics : log_frame get_metrics.
Proof. by intros pre st. Qed.

Lemma log_frame_set_metrics m : log_frame (set_metrics m).
Proof. by intros pre st. Qed.

Lemma log_frame_append_index s : log_frame (append_index s).
Proof. by intros pre st. Qed.

Lemma log_frame_for_each {A} (l : list A) (body : A → M unit) :
  Forall (λ x, log_frame (body x)) l → log_frame (for_each l body).
Proof.
  induction 1 as [| x l Hx _ IH]; simpl; [apply log_frame_ret |].
  apply log_frame_bind; [exact Hx | intros _; exact IH].
Qed.

Ltac frame_step :=
  first
    [ apply log_frame_ret
    | apply log_frame_raise
    | apply log_frame_log_info
    | apply log_frame_log_warning
    | apply log_frame_get_metrics
    | apply log_frame_set_metrics
    | apply log_frame_append_index
    | apply log_frame_bind; [| intros ?]
    | apply log_frame_try_except; [| intros ?]
    | match goal with
      | |- log_frame (if ?b then _ else _) => destruct b
      | |- log_frame (match ?x with _ => _ end) => destruct x
      end ].

Lemma log_frame_should_skip_file guess_type file_path :
  log_frame (should_skip_file guess_type file_path).
Proof.
  unfold should_skip_file, is_binary_file, incr_skipped. repeat frame_step.
Qed.

Lemma log_frame_read_text_file file_path data max_chars :
  log_frame (read_text_file file_path data max_chars).
Proof.
  unfold read_text_file, read_text, incr_errors. repeat frame_step.
Qed.

Lemma log_frame_index_file guess_type repo_path root f :
  log_frame (index_file guess_type repo_path root f).
Proof.
  unfold index_file, incr_indexed.
  apply log_frame_bind; [apply log_frame_should_skip_file | intros skip].
  destruct skip; [apply log_frame_ret |].
  apply log_frame_bind; [apply log_frame_read_text_file | intros content].
  repeat frame_step.
Qed.

Lemma log_frame_visit guess_type repo_path root dirs files :
  log_frame (visit guess_type repo_path root dirs files).
Proof.
  unfold visit.
  apply log_frame_bind; [| intros _; apply log_frame_bind; [| intros _; apply log_frame_ret]].
  - apply log_frame_for_each, Forall_forall. intros d _. apply log_frame_log_info.
  - apply log_frame_for_each, Forall_forall. intros f _. apply log_frame_index_file.
Qed.

Lemma log_frame_walk guess_type repo_path t :
  ∀ top, log_frame (os.walk None (visit guess_type repo_path) top t).
Proof.
  induction t as [files subdirs IH | e] using Tree_ind; intros top;
    [| apply log_frame_ret].
  intros pre st. rewrite !walk_scanned, log_frame_visit.
  destruct (visit _ _ _ _ _ st) as [dirs st1 | e st1]; [| reflexivity].
  apply log_frame_for_each.
  eapply Forall_impl; [exact IH |]. intros [dirname [islink sub]] Hsub. simpl.
  destruct (bool_decide (dirname ∈ dirs) && negb islink)%bool;
    [apply Hsub | apply log_frame_ret].
Qed.

(** X2: a run starts from fresh counters and a fresh file index and only
    appends to the stream.  Whatever the counters, the file index and the
    stream held before the call, the run returns the same Document, ends
    with the same counters and file index, and appends the same records;
    in particular a second run over the same tree returns the Document of
    the first. *)
Theorem X2_run_does_not_depend_on_prior_state
    (guess_type : string → option string) (repo_path : Path.t) (fs : Tree)
    (st st2 : State) :
  ∃ doc m idx evs,
    index_repo guess_type repo_path fs st =
      Ok doc (mkState m idx (stderr st ++ evs)) ∧
    index_repo guess_type repo_path fs st2 =
      Ok doc (mkState m idx (stderr st2 ++ evs)) ∧
    ∀ doc' st', index_repo guess_type repo_path fs st = Ok doc' st' →
      ∃ st'', index_repo guess_type repo_path fs st' = Ok doc' st''.
Proof.
  set (base := mkState (mkMetrics 0 0 0 None) [] [start_record repo_path]).
  assert (∀ s, start_state repo_path s = prepend (stderr s) base) as Hstart
    by reflexivity.
  destruct (walk_delta guess_type repo_path fs [] base) as (st1 & Hrun & _).
  rewrite app_nil_r in Hrun.
  assert (∀ s, index_repo guess_type repo_path fs s =
               finish (prepend (stderr s) st1)) as Hall.
  { intros s. by rewrite index_repo_unfold, Hstart, log_frame_walk, Hrun. }
  eexists _, _, _, (stderr st1 ++ [complete_record _]).
  split; [| split].
  - rewrite Hall. unfold finish, prepend; simpl. by rewrite <- (assoc_L (++)).
  - rewrite Hall. unfold finish, prepend; simpl. by rewrite <- (assoc_L (++)).
  - intros doc' st'. rewrite !Hall. unfold finish; simpl.
    intros [= <- <-]. eexists. reflexivity.
Qed.

(** *** The content reader at its bounds *)

Lemma take_length_le (n : nat) (s : string) :
  (String.length (Str.take n s) ≤ n)%nat.
Proof.
  revert s. induction n as [| n IH]; intros [| a s]; simpl; try lia.
  specialize (IH s). lia.
Qed.

Lemma take_length_min (n : nat) (s : string) :
  String.length (Str.take n s) = (n `min` String.length s)%nat.
Proof.
  revert s. induction n as [| n IH]; intros [| a s]; simpl; try lia.
  by rewrite IH.
Qed.

(** X6: with a limit that is not negative, the text that the reader
    returns is never longer than the limit plus the 15 characters of the
    marker, and never longer than the file's text plus the marker. *)
Theorem X6_returned_text_is_bounded
    (file_path : Path.t) (data : ReadOutcome) (max_chars : Z) (st st' : State)
    (text : string) :
  0 ≤ max_chars →
  read_text_file file_path data max_chars st = Ok (Some text) st' →
  Str.len text ≤ max_chars + 15 ∧
  ∀ content, data = Text content → Str.len text ≤ Str.len content + 15.
Proof.
  intros Hmax. rewrite read_text_file_run.
  destruct data as [content | e]; [| discriminate].
  destruct (Z.gtb_spec (Str.len content) max_chars) as [Hlong | Hshort].
  - intros [= <- _]. unfold Str.len in *.
    rewrite append_length. change (String.length TRUNCATION_MARKER) with 15%nat.
    rewrite <- (Z2Nat.id max_chars Hmax), slice_to_of_nat.
    pose proof (take_length_le (Z.to_nat max_chars) content).
    split; [lia |]. intros c [= <-].
    rewrite take_length_min. lia.
  - intros [= <- _]. split; [lia |]. intros c [= <-]. lia.
Qed.

Lemma X6_returned_text_is_bounded_witness :
  0 ≤ 3 ∧
  read_text_file ["repo"; "f.txt"] (Text "abcdef") 3 fresh =
    Ok (Some ("abc" +:+ TRUNCATION_MARKER))
       (emit (truncating_record ["repo"; "f.txt"]) fresh) ∧
  Str.len ("abc" +:+ TRUNCATION_MARKER) ≤ 3 + 15.
Proof.
  split; [lia |]. split; [reflexivity |].
  apply (X6_returned_text_is_bounded ["repo"; "f.txt"] (Text "abcdef") 3 fresh
           (emit (truncating_record ["repo"; "f.txt"]) fresh)
           ("abc" +:+ TRUNCATION_MARKER)); [lia | reflexivity].
Defined.

(** X7: with a negative limit every text counts as too long, the empty
    one too: the reader writes the truncating record and returns the text
    without its last [-max_chars] characters (nothing of it when it is
    shorter than that), followed by the marker. *)
Theorem X7_negative_limit
    (file_path : Path.t) (content : string) (max_chars : Z) (st : State) :
  max_chars < 0 →
  read_text_file file_path (Text content) max_chars st =
    Ok (Some (Str.take (String.length content - Z.to_nat (- max_chars)) content
              +:+ TRUNCATION_MARKER))
       (emit (truncating_record file_path) st).
Proof.
  intros Hneg. rewrite read_text_file_run.
  destruct (Z.gtb_spec (Str.len content) max_chars) as [_ | Hle];
    [| unfold Str.len in Hle; lia].
  unfold Str.slice_to.
  destruct (Z.leb_spec 0 max_chars) as [| _]; [lia |].
  replace (Z.to_nat (Str.len content + max_chars))
    with (String.length content - Z.to_nat (- max_chars))%nat
    by (unfold Str.len; lia).
  reflexivity.
Qed.

Lemma X7_negative_limit_witness :
  -2 < 0 ∧
  read_text_file ["repo"; "f.txt"] (Text "abcdef") (-2) fresh =
    Ok (Some ("abcd" +:+ TRUNCATION_MARKER))
       (emit (truncating_record ["repo"; "f.txt"]) fresh).
Proof.
  split; [lia |].
  apply (X7_negative_limit ["repo"; "f.txt"] "abcdef" (-2) fresh). lia.
Defined.

(** *** The formatter and the wrappers *)

(** X9: the keys of a formatted record are the seven base keys together
    with the keys of the record's keyword arguments; so no base field is
    ever missing from a line. *)
Theorem X9_keys_of_a_formatted_record
    (TRACE_ID utcnow : string) (r : LogRecord) :
  dom (format TRACE_ID utcnow r) = BASE_KEYS ∪ from_option dom ∅ (extra r).
Proof.
  unfold format, BASE_KEYS.
  destruct (extra r) as [kwargs |]; simpl;
    rewrite ?dom_union_L, !dom_insert_L, dom_empty_L;
    apply set_eq; intros k; set_unfold; tauto.
Qed.

(** X10: the severity code lies between 1 and 21 for every level, it
    grows with the level over the five standard levels, and a level outside
    them gets 1, also when it lies above one of them. *)
Theorem X10_severity_code_range
    (level : nat) :
  1 ≤ map_severity level ≤ 21 ∧
  (∀ l1 l2,
     l1 ∈ [logging.DEBUG; logging.INFO; logging.WARNING; logging.ERROR; logging.CRITICAL] →
     l2 ∈ [logging.DEBUG; logging.INFO; logging.WARNING; logging.ERROR; logging.CRITICAL] →
     (l1 < l2)%nat → map_severity l1 < map_severity l2) ∧
  (level ∉ [logging.DEBUG; logging.INFO; logging.WARNING; logging.ERROR; logging.CRITICAL] →
   map_severity level = 1).
Proof.
  split; [| split].
  - unfold map_severity.
    repeat match goal with |- context [Nat.eqb ?a ?b] => destruct (Nat.eqb a b) end; lia.
  - intros l1 l2 H1 H2.
    repeat (apply elem_of_cons in H1 as [-> | H1]); try by apply elem_of_nil in H1.
    all: repeat (apply elem_of_cons in H2 as [-> | H2]); try by apply elem_of_nil in H2.
    all: vm_compute; intros Hlt; (reflexivity || (exfalso; lia)).
  - intros Hnot. unfold map_severity.
    repeat match goal with
           | |- context [Nat.eqb ?a ?b] =>
               destruct (Nat.eqb_spec a b) as [-> | _];
               [exfalso; apply Hnot; set_unfold; tauto |]
           end.
    reflexivity.
Qed.

(** X13: the logging wrappers.  Called with keyword arguments that hold
    no key [message], each writes exactly one record and touches nothing
    else: [log_info] at INFO with code 9, [log_warning] at WARNING with
    code 13, [log_error] at ERROR with code 17; the record carries the
    wrapper's name as its function, and its formatted form holds every
    keyword argument of the call.  Called with a keyword [message], each
    raises and writes nothing. *)
Theorem X13_logging_wrappers
    (TRACE_ID utcnow message : string) (kwargs : gmap string JValue) (st : State) :
  let written (r : LogRecord) (text : string) (code : Z) (wrapper : string) : Prop :=
    logging.getLevelName (levelno r) = text ∧
    map_severity (levelno r) = code ∧
    funcName r = wrapper ∧
    msg r = message ∧
    ∀ k v, kwargs !! k = Some v → format TRACE_ID utcnow r !! k = Some v in
  (kwargs !! "message" = None →
   log_info message kwargs st = Ok tt (emit (info_record message kwargs) st) ∧
   written (info_record message kwargs) "INFO" 9 "log_info" ∧
   log_warning message kwargs st = Ok tt (emit (warning_record message kwargs) st) ∧
   written (warning_record message kwargs) "WARNING" 13 "log_warning" ∧
   log_error message kwargs st = Ok tt (emit (error_record message kwargs) st) ∧
   written (error_record message kwargs) "ERROR" 17 "log_error") ∧
  (∀ v, kwargs !! "message" = Some v →
   ∃ e1 e2 e3,
     log_info message kwargs st = Raise e1 st ∧
     log_warning message kwargs st = Raise e2 st ∧
     log_error message kwargs st = Raise e3 st).
Proof.
  split.
  - intros Hk. unfold log_info, log_warning, log_error. rewrite Hk.
    repeat split; try reflexivity.
    all: intros k v Hv; by eapply format_extra_field.
  - intros v Hk. unfold log_info, log_warning, log_error. rewrite Hk.
    eexists _, _, _. repeat split.
Qed.

(** *** The extension rule *)

Lemma lower_char_dot (c : ascii) :
  Ascii.eqb (Str.lower_char c) "."%char = Ascii.eqb c "."%char.
Proof.
  destruct c as [b0 b1 b2 b3 b4 b5 b6 b7].
  destruct b0, b1, b2, b3, b4, b5, b6, b7; reflexivity.
Qed.

Lemma rfind_lower (s : string) :
  Str.rfind "."%char (Str.lower s) = Str.rfind "."%char s.
Proof.
  induction s as [| a s IH]; [reflexivity |].
  simpl. by rewrite IH, lower_char_dot.
Qed.

Lemma length_lower (s : string) : String.length (Str.lower s) = String.length s.
Proof. induction s as [| a s IH]; simpl; [reflexivity | by rewrite IH]. Qed.

Lemma rfind_bounds (c : ascii) (s : string) : -1 ≤ Str.rfind c s < Str.len s.
Proof.
  unfold Str.len. induction s as [| a s IH]; simpl; [lia |].
  destruct (Z.leb_spec 0 (Str.rfind c s)); [lia |].
  destruct (Ascii.eqb a c); lia.
Qed.

Lemma rfind_append (c : ascii) (s1 s2 : string) :
  0 ≤ Str.rfind c s2 →
  Str.rfind c (s1 +:+ s2) = Str.len s1 + Str.rfind c s2.
Proof.
  intros H2. unfold Str.len. induction s1 as [| a s1 IH]; [reflexivity |].
  simpl. rewrite IH. destruct (Z.leb_spec 0 (Z.of_nat (String.length s1) + Str.rfind c s2)); lia.
Qed.

Lemma drop_append (s1 s2 : string) : Str.drop (String.length s1) (s1 +:+ s2) = s2.
Proof. induction s1 as [| a s1 IH]; simpl; [by destruct s2 | exact IH]. Qed.

Lemma take_drop (n : nat) (s : string) : Str.take n s +:+ Str.drop n s = s.
Proof.
  revert s. induction n as [| n IH]; intros [| a s]; try reflexivity.
  change (String a (Str.take n s +:+ Str.drop n s) = String a s).
  by rewrite IH.
Qed.

Lemma excluded_extension_shape (ext : string) :
  Str.lower ext ∈ SKIP_EXTS →
  Str.rfind "."%char ext = 0 ∧ (2 ≤ String.length ext)%nat.
Proof.
  intros Hin. rewrite <- rfind_lower, <- (length_lower ext).
  unfold SKIP_EXTS in Hin. set_unfold in Hin.
  destruct_or!; rewrite Hin; vm_compute; split; (reflexivity || lia || by intros).
Qed.

Lemma suffix_of_stem_and_extension (parent : Path.t) (stem ext : string) :
  stem ≠ "" →
  Str.rfind "."%char ext = 0 → (2 ≤ String.length ext)%nat →
  Path.suffix (Path.child parent (stem +:+ ext)) = ext.
Proof.
  intros Hstem Hdot Hlen. unfold Path.suffix. rewrite name_child.
  cbv zeta. rewrite rfind_append, Hdot, Z.add_0_r by lia.
  assert (0 < Str.len stem) as Hpos.
  { unfold Str.len. destruct stem; [done | simpl; lia]. }
  assert (Str.len stem < Str.len (stem +:+ ext) - 1) as Hlt.
  { unfold Str.len. rewrite append_length. lia. }
  destruct (Z.ltb_spec 0 (Str.len stem)); [| lia].
  destruct (Z.ltb_spec (Str.len stem) (Str.len (stem +:+ ext) - 1)); [| lia].
  simpl. unfold Str.slice_from.
  destruct (Z.leb_spec 0 (Str.len stem)); [| lia].
  unfold Str.len. rewrite Nat2Z.id. apply drop_append.
Qed.

(** X8: the extension rule matches a file exactly when its name is a
    non-empty stem followed by one of the excluded extensions, in any
    letter case; [should_skip_file] then skips the file by its extension
    whatever its type is guessed to be. *)
Theorem X8_extension_rule
    (guess_type : string → option string) (parent : Path.t) (name : string) (st : State) :
  (bool_decide (Str.lower (Path.suffix (Path.child parent name)) ∈ SKIP_EXTS) = true ↔
   ∃ stem ext, name = stem +:+ ext ∧ stem ≠ "" ∧ Str.lower ext ∈ SKIP_EXTS) ∧
  ((∃ stem ext, name = stem +:+ ext ∧ stem ≠ "" ∧ Str.lower ext ∈ SKIP_EXTS) →
   should_skip_file guess_type (Path.child parent name) st =
     Ok true
        (mkState (bump SkippedByExtension (metrics st)) (file_index st)
           (stderr st ++ [extension_record (Path.child parent name)]))).
Proof.
  assert ((∃ stem ext, name = stem +:+ ext ∧ stem ≠ "" ∧ Str.lower ext ∈ SKIP_EXTS) →
          bool_decide (Str.lower (Path.suffix (Path.child parent name)) ∈ SKIP_EXTS) = true)
    as Hback.
  { intros (stem & ext & -> & Hstem & Hin).
    destruct (excluded_extension_shape ext Hin) as [Hdot Hlen].
    rewrite suffix_of_stem_and_extension by assumption.
    by apply bool_decide_eq_true_2. }
  split; [split; [| exact Hback] |].
  - intros Hin. apply bool_decide_eq_true_1 in Hin.
    unfold Path.suffix in Hin. rewrite name_child in Hin. cbv zeta in Hin.
    pose proof (rfind_bounds "."%char name) as Hb.
    destruct (Z.ltb_spec 0 (Str.rfind "."%char name)) as [Hpos |];
      [| by vm_compute in Hin].
    destruct (Z.ltb_spec (Str.rfind "."%char name) (Str.len name - 1)) as [Hlt |];
      [| by vm_compute in Hin].
    simpl in Hin. unfold Str.slice_from in Hin.
    destruct (Z.leb_spec 0 (Str.rfind "."%char name)); [| lia].
    set (i := Z.to_nat (Str.rfind "."%char name)) in *.
    exists (Str.take i name), (Str.drop i name).
    split; [by rewrite take_drop |]. split; [| exact Hin].
    intros Hempty.
    assert (String.length (Str.take i name) = i) as Hlen.
    { apply take_length. unfold Str.len in *. lia. }
    rewrite Hempty in Hlen. simpl in Hlen. lia.
  - intros Hex. rewrite should_skip_file_run, (Hback Hex). reflexivity.
Qed.

(** *** Symbolic links *)

Lemma walk_symlink guess_type repo_path files before d sub sub' after top st :
  os.walk None (visit guess_type repo_path) top
    (Scanned files (before ++ (d, (true, sub)) :: after)) st =
  os.walk None (visit guess_type repo_path) top
    (Scanned files (before ++ (d, (true, sub')) :: after)) st.
Proof.
  rewrite !walk_scanned, !fmap_app, !fmap_cons. simpl.
  destruct (visit _ _ _ _ _ st) as [dirs st1 | e st1]; [| reflexivity].
  unfold descend. rewrite !for_each_app.
  destruct (for_each before _ st1) as [[] st2 | e st2]; [| reflexivity].
  simpl. by rewrite andb_false_r.
Qed.

(** X11: the traversal does not follow a symbolic link to a directory.
    Whatever lies behind such a link, anywhere in the tree, has no effect
    on the run: Document, counters and records are the same. *)
Theorem X11_linked_directories_are_not_followed
    (guess_type : string → option string) (repo_path : Path.t) (c : Ctx)
    (files : list FileEntry) (before after : list (string * (bool * Tree)))
    (d : string) (sub sub' : Tree) (st : State) :
  index_repo guess_type repo_path
    (plug c (Scanned files (before ++ (d, (true, sub)) :: after))) st =
  index_repo guess_type repo_path
    (plug c (Scanned files (before ++ (d, (true, sub')) :: after))) st.
Proof.
  apply index_repo_plug. intros top st0. apply walk_symlink.
Qed.

(** X14: the reader never lets an exception out.  For every file and
    every limit it returns, and it returns nothing exactly when the read
    fails; [errors] goes up by one in that case and stays otherwise, and
    the file index and the other counters are never touched. *)
Theorem X14_reader_never_raises
    (file_path : Path.t) (data : ReadOutcome) (max_chars : Z) (st : State) :
  ∃ result st',
    read_text_file file_path data max_chars st = Ok result st' ∧
    (result = None ↔ ∃ e, data = Fails e) ∧
    errors (metrics st') =
      (errors (metrics st) + if result is None then 1 else 0)%nat ∧
    indexed (metrics st') = indexed (metrics st) ∧
    skipped (metrics st') = skipped (metrics st) ∧
    char_count (metrics st') = char_count (metrics st) ∧
    file_index st' = file_index st.
Proof.
  rewrite read_text_file_run.
  destruct data as [content | e].
  - destruct (Str.len content >? max_chars);
      (eexists _, _; split; [reflexivity |]; simpl;
       repeat split; try lia; try discriminate; by intros [e He]).
  - eexists _, _. split; [reflexivity |]. simpl.
    repeat split; try lia. by exists e.
Qed.
